(** * custom-socket: the WebSocket client of [ws.ts] and [mod.ts]

    A shallow embedding of the class [WS] (ws.ts) and of
    [createConnection] (mod.ts).  JavaScript runs each task to completion
    and suspends an [async] function at every [await]; the embedding follows
    that: every method is a function in a state-and-exception monad over the
    fields of the object, and an [async] method is cut at its [await] into
    the part that runs before it and the part that runs when the awaited
    promise settles.

    What lies outside the repository is modelled as data: the runtime is
    the list of resources that are open and the trace of the calls made to
    it, [writeFrame] is the list of frames it was called with,
    [dispatchEvent] is the list of events dispatched, [readFrame] is the
    frame (or the error) it produced, and [TextDecoder] and [TextEncoder]
    are the UTF-8 decoder and encoder of the Encoding Standard.  Numbers
    are integers; the object is modelled from the moment [init] has
    stored the connection. *)

From Stdlib Require Import String Ascii.
From Stdlib Require Import ZArith List Bool Lia.
Import ListNotations.
Local Open Scope Z_scope.

(** ** Values *)

(** A [Uint8Array]: its elements, each in [0, 255]. *)
Definition Uint8Array := list Z.

(** A JavaScript string: its UTF-16 code units. *)
Definition JSString := list Z.

(** The code units of an ASCII literal. *)
Fixpoint js (s : string) : JSString :=
  match s with
  | EmptyString => []
  | String c s' => Z.of_nat (nat_of_ascii c) :: js s'
  end.

(** Errors that the modelled code throws or meets. *)
Inductive Err :=
| ConnectionReset          (* Deno.errors.ConnectionReset, thrown by enqueue *)
| BadResource              (* conn.close() on a closed resource *)
| RangeError               (* TypedArray.prototype.set past the end *)
| TypeError                (* frames[0] of an empty array, bad header name *)
| UnknownProtocol (p : string)
| ConnectError (n : nat)   (* Deno.connect / Deno.connectTls failed *)
| HandshakeError (n : nat) (* handshake() failed *)
| ReadError (n : nat)      (* readFrame failed *)
| WriteError (n : nat).    (* writeFrame failed *)

(** The outcome of a computation that may throw. *)
Inductive result (A : Type) :=
| Ok (a : A)
| Throw (e : Err).
Arguments Ok {A} a.
Arguments Throw {A} e.

(** ** Number conversions of the bit operators *)

Definition ToUint32 (n : Z) : Z := n mod 2 ^ 32.
Definition ToUint8 (n : Z) : Z := n mod 256.

(** [x[i]] on a typed array: [undefined] ([None]) out of range. *)
Definition index (a : Uint8Array) (i : nat) : option Z := nth_error a i.

(** [ToInt32] of an element read: [undefined] converts to [0]. *)
Definition int32_of (v : option Z) : Z :=
  match v with Some b => b | None => 0 end.

(** [a.subarray(2, a.length)]: the bounds are clamped to the array. *)
Definition subarray2 (a : Uint8Array) : Uint8Array := skipn 2 a.

(** [new Uint8Array(n)]. *)
Definition zeros (n : nat) : Uint8Array := repeat 0 n.

(** [arr.set(src, offs)]: throws when the source does not fit. *)
Definition u8_set (arr src : Uint8Array) (offs : nat) : result Uint8Array :=
  if (offs + length src <=? length arr)%nat
  then Ok (firstn offs arr ++ src ++ skipn (offs + length src) arr)
  else Throw RangeError.

(** ** TextDecoder and TextEncoder (UTF-8, as the Encoding Standard has them) *)

Module Text.

Record Utf8State := {
  cp : Z; seen : Z; needed : Z; lower : Z; upper : Z
}.

Definition start : Utf8State :=
  {| cp := 0; seen := 0; needed := 0; lower := 0x80; upper := 0xBF |}.

(** A byte met when no sequence is open. *)
Definition lead (b : Z) : Utf8State * list Z :=
  if b <=? 0x7F then (start, [b])
  else if (0xC2 <=? b) && (b <=? 0xDF) then
    ({| cp := Z.land b 0x1F; seen := 0; needed := 1;
        lower := 0x80; upper := 0xBF |}, [])
  else if (0xE0 <=? b) && (b <=? 0xEF) then
    ({| cp := Z.land b 0xF; seen := 0; needed := 2;
        lower := if b =? 0xE0 then 0xA0 else 0x80;
        upper := if b =? 0xED then 0x9F else 0xBF |}, [])
  else if (0xF0 <=? b) && (b <=? 0xF4) then
    ({| cp := Z.land b 0x7; seen := 0; needed := 3;
        lower := if b =? 0xF0 then 0x90 else 0x80;
        upper := if b =? 0xF4 then 0x8F else 0xBF |}, [])
  else (start, [0xFFFD]).

Definition step (st : Utf8State) (b : Z) : Utf8State * list Z :=
  if needed st =? 0 then lead b
  else if (b <? lower st) || (upper st <? b) then
    let '(st', out) := lead b in (st', 0xFFFD :: out)
  else
    let c := Z.lor (Z.shiftl (cp st) 6) (Z.land b 0x3F) in
    if seen st + 1 =? needed st then (start, [c])
    else ({| cp := c; seen := seen st + 1; needed := needed st;
             lower := 0x80; upper := 0xBF |}, []).

(** The code points of a byte sequence, U+FFFD for each malformed part. *)
Fixpoint run (st : Utf8State) (bs : Uint8Array) : list Z :=
  match bs with
  | [] => if needed st =? 0 then [] else [0xFFFD]
  | b :: bs' => let '(st', out) := step st b in out ++ run st' bs'
  end.

Definition strip_bom (bs : Uint8Array) : Uint8Array :=
  match bs with
  | 0xEF :: 0xBB :: 0xBF :: bs' => bs'
  | _ => bs
  end.

Definition utf16 (c : Z) : list Z :=
  if c <? 0x10000 then [c]
  else [0xD800 + Z.shiftr (c - 0x10000) 10;
        0xDC00 + Z.land (c - 0x10000) 0x3FF].

(** [new TextDecoder().decode(bytes)]. *)
Definition decode (bs : Uint8Array) : JSString :=
  flat_map utf16 (run start (strip_bom bs)).

Definition is_high (u : Z) : bool := (0xD800 <=? u) && (u <=? 0xDBFF).
Definition is_low (u : Z) : bool := (0xDC00 <=? u) && (u <=? 0xDFFF).

(** The scalar values of a string; a lone surrogate becomes U+FFFD. *)
Fixpoint scalars (s : JSString) : list Z :=
  match s with
  | [] => []
  | u :: rest =>
    if is_high u then
      match rest with
      | l :: rest' =>
        if is_low l
        then (0x10000 + Z.shiftl (u - 0xD800) 10 + (l - 0xDC00)) :: scalars rest'
        else 0xFFFD :: scalars rest
      | [] => [0xFFFD]
      end
    else if is_low u then 0xFFFD :: scalars rest
    else u :: scalars rest
  end.

Definition utf8 (c : Z) : Uint8Array :=
  if c <? 0x80 then [c]
  else if c <? 0x800 then
    [Z.lor 0xC0 (Z.shiftr c 6); Z.lor 0x80 (Z.land c 0x3F)]
  else if c <? 0x10000 then
    [Z.lor 0xE0 (Z.shiftr c 12);
     Z.lor 0x80 (Z.land (Z.shiftr c 6) 0x3F);
     Z.lor 0x80 (Z.land c 0x3F)]
  else
    [Z.lor 0xF0 (Z.shiftr c 18);
     Z.lor 0x80 (Z.land (Z.shiftr c 12) 0x3F);
     Z.lor 0x80 (Z.land (Z.shiftr c 6) 0x3F);
     Z.lor 0x80 (Z.land c 0x3F)].

(** [new TextEncoder().encode(s)]. *)
Definition encode (s : JSString) : Uint8Array :=
  flat_map utf8 (scalars s).

End Text.

(** ** Frames (std/ws [WebSocketFrame], [OpCode]) *)

Inductive OpCode :=
| Continue        (* 0x0 *)
| TextFrame       (* 0x1 *)
| BinaryFrame     (* 0x2 *)
| Close           (* 0x8 *)
| Ping            (* 0x9 *)
| Pong            (* 0xA *)
| Reserved (n : Z).

Definition Mask := Uint8Array.

Module Frame.
Record t := {
  isLastFrame : bool;
  opcode : OpCode;
  mask : option Mask;
  payload : Uint8Array
}.
End Frame.
Definition WebSocketFrame := Frame.t.

(** [string | Uint8Array]. *)
Inductive WebSocketMessage :=
| Str (s : JSString)
| Bin (b : Uint8Array).

(** A promise made by [deferred()]: its number in the order of creation. *)
Definition Deferred := nat.

(** The queue object of the WS. *)
Record Queue := {
  frame : WebSocketFrame;
  d : Deferred
}.

(** ** Events *)

Inductive ErrorInfo :=
| Thrown (e : Err)
| CloseInfo (code : Z) (reason : JSString).

Inductive Event :=
| EvOpen
| EvMessageText (data : JSString)
| EvMessageBinary (data : Uint8Array)
| EvPing (data : Uint8Array)
| EvPong (data : Uint8Array)
| EvError (error : ErrorInfo)
| EvClose.

(** ** Computations over a state that may throw *)

Definition M (S A : Type) := S -> S * result A.

Definition ret {S A} (a : A) : M S A := fun s => (s, Ok a).

Definition throw {S A} (e : Err) : M S A := fun s => (s, Throw e).

Definition bind {S A B} (m : M S A) (k : A -> M S B) : M S B :=
  fun s =>
    match m s with
    | (s', Ok a) => k a s'
    | (s', Throw e) => (s', Throw e)
    end.

Definition modify {S} (f : S -> S) : M S unit := fun s => (f s, Ok tt).

(** A value already computed, or the error it threw. *)
Definition lift {S A} (r : result A) : M S A := fun s => (s, r).

(** [try { body } catch (e) { handler e }]. *)
Definition try_catch {S A} (body : M S A) (handler : Err -> M S A) : M S A :=
  fun s =>
    match body s with
    | (s', Ok a) => (s', Ok a)
    | (s', Throw e) => handler e s'
    end.

(** [try { body } finally { fin }]: [fin] runs on both ways out, and the
    outcome of [body] stands unless [fin] throws itself. *)
Definition try_finally {S A} (body : M S A) (fin : M S unit) : M S A :=
  fun s =>
    let '(s1, r) := body s in
    match fin s1 with
    | (s2, Ok _) => (s2, r)
    | (s2, Throw e) => (s2, Throw e)
    end.

Declare Scope monad_scope.
Delimit Scope monad_scope with monad.
Notation "x <- m ;; k" := (bind m (fun x => k))
  (at level 61, m at next level, right associativity) : monad_scope.
Notation "m ;; k" := (bind m (fun _ => k))
  (at level 61, right associativity) : monad_scope.

(** An [async] function seen from its caller's task: it has run to its
    end, or it is suspended at an [await] on a promise. *)
Inductive Async (A : Type) :=
| Done (r : result A)
| Await (p : Deferred).
Arguments Done {A} r.
Arguments Await {A} p.

(** ** mod.ts: [createConnection] *)

Module Mod.

(** A [Deno.Conn]: the resource it holds. *)
Record Conn := { rid : nat }.

(** Connection properties required to connect with socket.  [bufReader]
    and [bufWriter] wrap [conn] and carry nothing of their own here. *)
Record Connection := {
  conn : Conn;
  mask : Mask
}.

(** The fields of [new URL(url)] that are read. *)
Record URL := {
  protocol : string;
  hostname : string;
  port : string
}.

(** A call [headersObject.set(name, value)], with the name and the value
    that [set] was called with. *)
Inductive HeaderSet := SetHeader (name value : string).

(** A [Headers] object.  What such an object makes of the names and the
    values it is given (the case of a name, the white space around a
    value, a name set twice, the order in which it hands the headers out)
    is the platform's own affair; the object is known here by the calls of
    [set] made on it since [new Headers()], in their order. *)
Definition Headers := list HeaderSet.

(** What the runtime was asked to do, in order. *)
Inductive NetOp :=
| OpConnect (hostname : string) (port : option Z) (r : nat)
| OpConnectTls (hostname : string) (port : option Z) (r : nat)
| OpHandshake (r : nat) (headers : Headers)
| OpClose (r : nat).

(** The runtime: the resources that are open, the next resource id and
    the calls made so far. *)
Record Net := {
  open : list nat;
  next : nat;
  trace : list NetOp
}.

(** The behaviour of what is outside: which connects and handshakes fail,
    which header names and values [Headers.set] accepts, and the bytes that
    [crypto.getRandomValues] hands out. *)
Record Env := {
  connect_fails : bool -> string -> option Z -> option Err;
  handshake_fails : URL -> Headers -> option Err;
  header_ok : string -> string -> bool;
  random : Mask
}.

Definition digit (c : ascii) : option Z :=
  let n := Z.of_nat (nat_of_ascii c) in
  if (48 <=? n) && (n <=? 57) then Some (n - 48) else None.

Fixpoint digits (s : string) (acc : option Z) : option Z :=
  match s with
  | EmptyString => acc
  | String c s' =>
    match digit c with
    | Some v => digits s' (Some (10 * match acc with Some a => a | None => 0 end + v))
    | None => acc
    end
  end.

(** [parseInt] on the port of a URL (decimal digits, or nothing): [None]
    is [NaN]. *)
Definition parseInt (s : string) : option Z := digits s None.

(** [s || dflt] on strings: the empty string is falsy. *)
Definition or_else (s dflt : string) : string :=
  match s with EmptyString => dflt | _ => s end.

(** The object after one more call of [set]. *)
Definition set_call (name value : string) (h : Headers) : Headers :=
  h ++ [SetHeader name value].

(** [headersObject.set(name, value)]: the platform throws a TypeError on
    a name or a value that it does not accept. *)
Definition headers_set (env : Env) (name value : string) (h : Headers)
  : M Net Headers :=
  if header_ok env name value
  then ret (set_call name value h)
  else throw TypeError.

(** [for (const header in headers) headersObject.set(header, headers[header])]. *)
Fixpoint set_all (env : Env) (headers : list (string * string)) (h : Headers)
  : M Net Headers :=
  match headers with
  | [] => ret h
  | (name, value) :: rest =>
    (h' <- headers_set env name value h ;; set_all env rest h')%monad
  end.

(** [Deno.connect] ([tls = false]) and [Deno.connectTls] ([tls = true]). *)
Definition connect (env : Env) (tls : bool) (host : string) (p : option Z)
  : M Net Conn :=
  fun n =>
    match connect_fails env tls host p with
    | Some e => (n, Throw e)
    | None =>
      let r := next n in
      ({| open := r :: open n;
          next := S r;
          trace := trace n ++
                   [if tls then OpConnectTls host p r else OpConnect host p r] |},
       Ok {| rid := r |})
    end.

(** [handshake(parsedURL, headersObject, reader, writer)]. *)
Definition handshake (env : Env) (url : URL) (h : Headers) (c : Conn)
  : M Net unit :=
  fun n =>
    let n' := {| open := open n; next := next n;
                 trace := trace n ++ [OpHandshake (rid c) h] |} in
    match handshake_fails env url h with
    | Some e => (n', Throw e)
    | None => (n', Ok tt)
    end.

Definition is_open (n : Net) (c : Conn) : bool :=
  existsb (Nat.eqb (rid c)) (open n).

(** [conn.close()]: throws on a resource that is not open. *)
Definition conn_close (c : Conn) : M Net unit :=
  fun n =>
    let n' := {| open := filter (fun r => negb (Nat.eqb (rid c) r)) (open n);
                 next := next n;
                 trace := trace n ++ [OpClose (rid c)] |} in
    if is_open n c then (n', Ok tt) else (n', Throw BadResource).

(** Creates mask for the createSocketConnection function! *)
Definition createMask (env : Env) : M Net Mask := ret (random env).

(** Returns connection details. *)
Definition createConnection (env : Env) (parsedURL : URL)
  (headers : list (string * string)) : M Net Connection :=
  (let protocol := protocol parsedURL in
   let hostname := hostname parsedURL in
   let port := port parsedURL in
   conn <- (if String.eqb protocol "http:" || String.eqb protocol "ws:"
            then connect env false hostname (parseInt (or_else port "80"))
            else if String.eqb protocol "https:" || String.eqb protocol "wss:"
            then connect env true hostname (parseInt (or_else port "443"))
            else throw (UnknownProtocol protocol)) ;;
   headersObject <- set_all env headers [] ;;
   try_catch (handshake env parsedURL headersObject conn)
             (fun e => conn_close conn ;; throw e) ;;
   mask <- createMask env ;;
   ret {| conn := conn; mask := mask |})%monad.

(** The headers object that the loop over the caller's headers builds
    when every [set] is accepted. *)
Definition merged (headers : list (string * string)) (h : Headers) : Headers :=
  fold_left (fun h kv => set_call (fst kv) (snd kv) h) headers h.

(** The runtime call that opens the transport, as the trace records it. *)
Definition connect_op (tls : bool) (host : string) (p : option Z) (r : nat)
  : NetOp :=
  if tls then OpConnectTls host p r else OpConnect host p r.

(** An example: every connect succeeds, every header is accepted, and the
    server refuses the upgrade. *)
Definition refusing : Env :=
  {| connect_fails := fun _ _ _ => None;
     handshake_fails := fun _ _ => Some (HandshakeError 1);
     header_ok := fun _ _ => true;
     random := [1; 2; 3; 4] |}.

Definition somedomain : URL :=
  {| protocol := "wss:"; hostname := "somedomain.com"; port := EmptyString |}.

Definition no_conns : Net := {| open := []; next := 0; trace := [] |}.

End Mod.

(** ** ws.ts: the class [WS] *)

Module WS.

(** The fields of the object, then what it acts on: the runtime that owns
    the transport, the frame [writeFrame] is busy with and the frames it
    was called with, the state of each promise made by [deferred()]
    ([None] while pending), and the events dispatched. *)
Record t := {
  mask : Mask;
  conn : Mod.Conn;
  queue : list Queue;
  _isClosed : bool;
  readyState : Z;
  net : Mod.Net;
  writing : option Queue;
  written : list WebSocketFrame;
  deferreds : list (option (result unit));
  events : list Event
}.

Definition set_queue (q : list Queue) (s : t) : t :=
  {| mask := mask s; conn := conn s; queue := q; _isClosed := _isClosed s;
     readyState := readyState s; net := net s; writing := writing s;
     written := written s; deferreds := deferreds s; events := events s |}.

Definition set_isClosed (b : bool) (s : t) : t :=
  {| mask := mask s; conn := conn s; queue := queue s; _isClosed := b;
     readyState := readyState s; net := net s; writing := writing s;
     written := written s; deferreds := deferreds s; events := events s |}.

Definition set_readyState (r : Z) (s : t) : t :=
  {| mask := mask s; conn := conn s; queue := queue s; _isClosed := _isClosed s;
     readyState := r; net := net s; writing := writing s;
     written := written s; deferreds := deferreds s; events := events s |}.

Definition set_net (n : Mod.Net) (s : t) : t :=
  {| mask := mask s; conn := conn s; queue := queue s; _isClosed := _isClosed s;
     readyState := readyState s; net := n; writing := writing s;
     written := written s; deferreds := deferreds s; events := events s |}.

Definition set_writing (w : option Queue) (s : t) : t :=
  {| mask := mask s; conn := conn s; queue := queue s; _isClosed := _isClosed s;
     readyState := readyState s; net := net s; writing := w;
     written := written s; deferreds := deferreds s; events := events s |}.

Definition set_written (w : list WebSocketFrame) (s : t) : t :=
  {| mask := mask s; conn := conn s; queue := queue s; _isClosed := _isClosed s;
     readyState := readyState s; net := net s; writing := writing s;
     written := w; deferreds := deferreds s; events := events s |}.

Definition set_deferreds (ds : list (option (result unit))) (s : t) : t :=
  {| mask := mask s; conn := conn s; queue := queue s; _isClosed := _isClosed s;
     readyState := readyState s; net := net s; writing := writing s;
     written := written s; deferreds := ds; events := events s |}.

Definition set_events (ev : list Event) (s : t) : t :=
  {| mask := mask s; conn := conn s; queue := queue s; _isClosed := _isClosed s;
     readyState := readyState s; net := net s; writing := writing s;
     written := written s; deferreds := deferreds s; events := ev |}.

Local Open Scope monad_scope.

(** [this.dispatchEvent(ev)]. *)
Definition dispatchEvent (ev : Event) : M t unit :=
  modify (fun s => set_events (events s ++ [ev]) s).

(** [this.conn.close()], run in the runtime the object lives in. *)
Definition conn_close : M t unit :=
  fun s =>
    let '(n, r) := Mod.conn_close (conn s) (net s) in (set_net n s, r).

Definition ensureClosed : M t unit :=
  try_finally
    (try_catch conn_close (fun error => dispatchEvent (EvError (Thrown error))))
    (modify (set_isClosed true) ;;
     modify (set_readyState 3) ;;
     dispatchEvent EvClose).

(** [writeFrame(frame, this.writer)] is called: the write is under way. *)
Definition writeFrame (entry : Queue) : M t unit :=
  modify (fun s => set_writing (Some entry) (set_written (written s ++ [frame entry]) s)).

Definition dequeue : M t unit :=
  fun s =>
    match hd_error (queue s) with
    | None => ret tt s
    | Some entry =>
      if negb (_isClosed s) then ret tt s
      else writeFrame entry s
    end.

(** [deferred<void>()]: a new pending promise. *)
Definition deferred : M t Deferred :=
  fun s => (set_deferreds (deferreds s ++ [None]) s, Ok (length (deferreds s))).

Definition enqueue (frame : WebSocketFrame) : M t Deferred :=
  fun s =>
    if _isClosed s then throw ConnectionReset s
    else
      (d <- deferred ;;
       modify (fun s => set_queue (queue s ++ [{| frame := frame; d := d |}]) s) ;;
       (fun s => if (length (queue s) =? 1)%nat then dequeue s else ret tt s) ;;
       ret d) s.

(** The object once [frame] has been queued with a new promise and nothing
    else has happened. *)
Definition queued (frame : WebSocketFrame) (s : t) : t :=
  set_queue (queue s ++ [{| frame := frame; d := length (deferreds s) |}])
            (set_deferreds (deferreds s ++ [None]) s).

(** The object once [ensureClosed] has run: [conn.close()] was called (and
    its exception, if the resource was gone, reported as an error event),
    the flags are set and the close event is dispatched. *)
Definition closed_down (s : t) : t :=
  set_events
    (events s ++
     (if Mod.is_open (net s) (conn s) then [] else [EvError (Thrown BadResource)]) ++
     [EvClose])
    (set_readyState 3
       (set_isClosed true
          (set_net (fst (Mod.conn_close (conn s) (net s))) s))).

(** [d.resolve] / [d.reject]: a promise settles once. *)
Fixpoint settle (ds : list (option (result unit))) (d : Deferred)
  (r : result unit) : list (option (result unit)) :=
  match ds, d with
  | [], _ => []
  | None :: ds', O => Some r :: ds'
  | Some r0 :: ds', O => Some r0 :: ds'
  | x :: ds', S d' => x :: settle ds' d' r
  end.

(** [.then(d.resolve, d.reject)] of the write under way, when [writeFrame]
    settles with [r]. *)
Definition write_then (r : result unit) (entry : Queue) : M t unit :=
  modify (fun s => set_deferreds (settle (deferreds s) (d entry) r) s).

(** [.finally(() => { this.queue.shift(); this.dequeue(); })]. *)
Definition write_finally : M t unit :=
  modify (set_writing None) ;;
  modify (fun s => set_queue (tl (queue s)) s) ;;
  dequeue.

(** Send data to the socket. *)
Definition send (data : WebSocketMessage) : M t Deferred :=
  fun s =>
    enqueue {| Frame.isLastFrame := true;
               Frame.opcode := match data with Str _ => TextFrame | Bin _ => BinaryFrame end;
               Frame.payload := match data with Str x => Text.encode x | Bin b => b end;
               Frame.mask := Some (mask s) |} s.

(** Ping the socket. *)
Definition ping (data : WebSocketMessage) : M t Deferred :=
  fun s =>
    enqueue {| Frame.isLastFrame := true;
               Frame.opcode := Ping;
               Frame.payload := match data with Str x => Text.encode x | Bin b => b end;
               Frame.mask := Some (mask s) |} s.

(** [[code >>> 8, code & 0x00ff]]. *)
Definition close_header (code : Z) : list Z :=
  [Z.shiftr (ToUint32 code) 8; Z.land code 0x00ff].

(** The payload that [close] builds; a reason that is absent or empty is
    falsy. *)
Definition close_payload (code : Z) (reason : option JSString)
  : result Uint8Array :=
  let header := close_header code in
  match reason with
  | Some ((_ :: _) as reason) =>
    let reasonBytes := Text.encode reason in
    match u8_set (zeros (2 + length reasonBytes)) (map ToUint8 header) 0 with
    | Ok payload => u8_set payload reasonBytes 2
    | Throw e => Throw e
    end
  | _ => Ok (map ToUint8 header)
  end.

(** The default of the parameter [code]. *)
Definition default_code : Z := 100.

(** Close the socket connection: from the call to the [await]. *)
Definition close_begin (code : option Z) (reason : option JSString)
  : t -> t * Async unit :=
  fun s =>
    let code := match code with Some c => c | None => default_code end in
    if _isClosed s then (s, Done (Ok tt))
    else
      match (payload <- lift (close_payload code reason) ;;
             enqueue {| Frame.isLastFrame := true;
                        Frame.opcode := Close;
                        Frame.mask := Some (mask s);
                        Frame.payload := payload |}) s with
      | (s1, Ok p) => (s1, Await p)
      | (s1, Throw e) =>
        let '(s2, r) := try_finally (try_catch (throw e) (fun e => throw e))
                                    ensureClosed s1 in
        (s2, Done r)
      end.

(** Close the socket connection: from the [await], once the promise of
    [enqueue] has settled with [r], to the end. *)
Definition close_resume (r : result unit) : M t unit :=
  try_finally (try_catch (lift r) (fun e => throw e)) ensureClosed.

(** *** The read loop of [init] *)

(** The variables [frames] and [payloadsLength] of [init]. *)
Record Buf := {
  frames : list WebSocketFrame;
  payloadsLength : nat
}.

Definition empty_buf : Buf := {| frames := []; payloadsLength := 0 |}.

(** Where [init] stands between two tasks. *)
Inductive Loop :=
| AwaitRead (b : Buf)
    (* at [await readFrame(this.reader)] *)
| AwaitPong (p : Deferred) (payload : Uint8Array) (b : Buf)
    (* at [await this.enqueue(...)] of the Ping case *)
| AwaitClose (p : Deferred) (code : Z) (reason : JSString)
    (* at [await this.close(code, reason)], itself at its [await] on [p] *)
| Returned
    (* the loop was left, or the Close case returned *)
| Rejected (e : Err).
    (* an exception left [init] *)

(** The constructor and the start of [init], given a [Connection] that was
    made in the runtime [n]: up to the first [readFrame]. *)
Definition new (c : Mod.Connection) (n : Mod.Net) : t * Loop :=
  ({| mask := Mod.mask c; conn := Mod.conn c; queue := [];
      _isClosed := false; readyState := 1; net := n; writing := None;
      written := []; deferreds := []; events := [EvOpen] |},
   AwaitRead empty_buf).

(** [while (!this._isClosed)], then the call of [readFrame]. *)
Definition loop_top (b : Buf) : t -> t * Loop :=
  fun s => if _isClosed s then (s, Returned) else (s, AwaitRead b).

(** The [for] loop that copies the fragments into [concat]. *)
Fixpoint copy_frames (fs : list WebSocketFrame) (concat : Uint8Array)
  (offs : nat) : result Uint8Array :=
  match fs with
  | [] => Ok concat
  | f :: fs' =>
    match u8_set concat (Frame.payload f) offs with
    | Ok concat' => copy_frames fs' concat' (offs + length (Frame.payload f))
    | Throw e => Throw e
    end
  end.

Definition is_text (o : OpCode) : bool :=
  match o with TextFrame => true | _ => false end.

(** The opcodes that the first case of the [switch] takes. *)
Definition is_data (o : OpCode) : bool :=
  match o with TextFrame | BinaryFrame | Continue => true | _ => false end.

(** The bytes of a list of frames, end to end. *)
Definition payloads (fs : list WebSocketFrame) : Uint8Array :=
  concat (map Frame.payload fs).

(** The message that a completed list of fragments is delivered as. *)
Definition message_of (first : WebSocketFrame) (data : Uint8Array) : Event :=
  if is_text (Frame.opcode first)
  then EvMessageText (Text.decode data)
  else EvMessageBinary data.


(** The cases TextFrame, BinaryFrame and Continue. *)
Definition on_data (frame : WebSocketFrame) (b : Buf) : t -> t * Loop :=
  fun s =>
    let frames := frames b ++ [frame] in
    let payloadsLength := (payloadsLength b + length (Frame.payload frame))%nat in
    if Frame.isLastFrame frame then
      match copy_frames frames (zeros payloadsLength) 0, hd_error frames with
      | Throw e, _ => (s, Rejected e)
      | Ok _, None => (s, Rejected TypeError)
      | Ok concat, Some first =>
        let '(s1, _) :=
          dispatchEvent (message_of first concat) s in
        loop_top empty_buf s1
      end
    else loop_top {| frames := frames; payloadsLength := payloadsLength |} s.

(** [(frame.payload[0] << 8) | frame.payload[1]]. *)
Definition close_code (payload : Uint8Array) : Z :=
  Z.lor (Z.shiftl (int32_of (index payload 0)) 8) (int32_of (index payload 1)).

(** [decoder.decode(frame.payload.subarray(2, frame.payload.length))]. *)
Definition close_reason (payload : Uint8Array) : JSString :=
  Text.decode (subarray2 payload).

(** What follows [await this.close(code, reason)] in the Close case. *)
Definition after_close (r : result unit) (code : Z) (reason : JSString)
  : t -> t * Loop :=
  fun s =>
    match r with
    | Ok _ =>
      let '(s1, _) := dispatchEvent (EvError (CloseInfo code reason)) s in
      (s1, Returned)
    | Throw e => (s, Rejected e)
    end.

(** The case Close. *)
Definition on_close (frame : WebSocketFrame) : t -> t * Loop :=
  fun s =>
    let s0 := set_readyState 2 s in
    let code := close_code (Frame.payload frame) in
    let reason := close_reason (Frame.payload frame) in
    match close_begin (Some code) (Some reason) s0 with
    | (s1, Done r) => after_close r code reason s1
    | (s1, Await p) => (s1, AwaitClose p code reason)
    end.

(** What follows [await this.enqueue(...)] in the Ping case. *)
Definition after_pong (r : result unit) (payload : Uint8Array) (b : Buf)
  : t -> t * Loop :=
  fun s =>
    match r with
    | Ok _ =>
      let '(s1, _) := dispatchEvent (EvPing payload) s in
      loop_top b s1
    | Throw e => (s, Rejected e)
    end.

(** The case Ping. *)
Definition on_ping (frame : WebSocketFrame) (b : Buf) : t -> t * Loop :=
  fun s =>
    match enqueue {| Frame.opcode := Pong;
                     Frame.payload := Frame.payload frame;
                     Frame.isLastFrame := true;
                     Frame.mask := None |} s with
    | (s1, Ok p) => (s1, AwaitPong p (Frame.payload frame) b)
    | (s1, Throw e) => (s1, Rejected e)
    end.

(** The case Pong. *)
Definition on_pong (frame : WebSocketFrame) (b : Buf) : t -> t * Loop :=
  fun s =>
    let '(s1, _) := dispatchEvent (EvPong (Frame.payload frame)) s in
    loop_top b s1.

(** One turn of the loop, from the moment [readFrame] settles with [r]. *)
Definition on_read (r : result WebSocketFrame) (b : Buf) : t -> t * Loop :=
  fun s =>
    match r with
    | Throw _ => let '(s1, _) := ensureClosed s in (s1, Returned)
    | Ok frame =>
      match Frame.opcode frame with
      | TextFrame | BinaryFrame | Continue => on_data frame b s
      | Close => on_close frame s
      | Ping => on_ping frame b s
      | Pong => on_pong frame b s
      | Reserved _ => loop_top b s
      end
    end.

(** The loop resumes when the promise it waits for settles with [r]. *)
Definition on_settled (r : result unit) (l : Loop) : t -> t * Loop :=
  fun s =>
    match l with
    | AwaitPong _ payload b => after_pong r payload b s
    | AwaitClose _ code reason =>
      let '(s1, r1) := close_resume r s in after_close r1 code reason s1
    | _ => (s, l)
    end.

(** The frames of a list read one after the other, as long as the loop is
    at its [readFrame]. *)
Fixpoint read_all (fs : list WebSocketFrame) (l : Loop) (s : t) : t * Loop :=
  match fs, l with
  | f :: fs', AwaitRead b => let '(s1, l1) := on_read (Ok f) b s in read_all fs' l1 s1
  | _, _ => (s, l)
  end.

End WS.

(** ** The object among its callers

    The tasks that touch a [WS] between its construction and its end: a
    caller invokes [send], [ping] or [close]; the [readFrame] the loop waits
    for settles; the [writeFrame] under way settles.  A caller's [close]
    that reached its [await] is kept with the promise it waits for. *)

Module Run.

Record Sys := {
  ws : WS.t;
  loop : WS.Loop;
  closing : list Deferred
}.

Inductive Action :=
| CallSend (data : WebSocketMessage)
| CallPing (data : WebSocketMessage)
| CallClose (code : option Z) (reason : option JSString)
| ReadSettles (r : result WebSocketFrame)
| WriteSettles (r : result unit).

(** A connection handed to [new WS(socket)]. *)
Definition start (c : Mod.Connection) (n : Mod.Net) : Sys :=
  let '(s, l) := WS.new c n in {| ws := s; loop := l; closing := [] |}.

(** Does the loop wait for the promise [p]? *)
Definition loop_awaits (l : WS.Loop) (p : Deferred) : bool :=
  match l with
  | WS.AwaitPong q _ _ => Nat.eqb q p
  | WS.AwaitClose q _ _ => Nat.eqb q p
  | _ => false
  end.

(** The callers' [close] calls that wait for [p] run to their end. *)
Fixpoint resume_closing (r : result unit) (p : Deferred)
  (waiting : list Deferred) (s : WS.t) : WS.t :=
  match waiting with
  | [] => s
  | q :: rest =>
    if Nat.eqb q p
    then resume_closing r p rest (fst (WS.close_resume r s))
    else resume_closing r p rest s
  end.

(** One task; [None] when it cannot happen in [x].  When a write settles,
    the promise of its entry settles first, whoever awaits that promise
    runs next, and the [finally] callback of [dequeue] runs last. *)
Definition step (a : Action) (x : Sys) : option Sys :=
  match a with
  | CallSend data =>
    Some {| ws := fst (WS.send data (ws x)); loop := loop x; closing := closing x |}
  | CallPing data =>
    Some {| ws := fst (WS.ping data (ws x)); loop := loop x; closing := closing x |}
  | CallClose code reason =>
    match WS.close_begin code reason (ws x) with
    | (s, Done _) => Some {| ws := s; loop := loop x; closing := closing x |}
    | (s, Await p) => Some {| ws := s; loop := loop x; closing := closing x ++ [p] |}
    end
  | ReadSettles r =>
    match loop x with
    | WS.AwaitRead b =>
      let '(s, l) := WS.on_read r b (ws x) in
      Some {| ws := s; loop := l; closing := closing x |}
    | _ => None
    end
  | WriteSettles r =>
    match WS.writing (ws x) with
    | None => None
    | Some entry =>
      let s1 := fst (WS.write_then r entry (ws x)) in
      let '(s2, l) := if loop_awaits (loop x) (d entry)
                      then WS.on_settled r (loop x) s1
                      else (s1, loop x) in
      let s3 := resume_closing r (d entry) (closing x) s2 in
      let s4 := fst (WS.write_finally s3) in
      Some {| ws := s4; loop := l;
              closing := filter (fun q => negb (Nat.eqb q (d entry))) (closing x) |}
    end
  end.

Fixpoint run (acts : list Action) (x : Sys) : option Sys :=
  match acts with
  | [] => Some x
  | a :: acts' =>
    match step a x with
    | Some x' => run acts' x'
    | None => None
    end
  end.

(** [s'] has the write under way and the writes made that [s] has. *)
Definition same_writes (s s' : WS.t) : Prop :=
  WS.writing s' = WS.writing s /\ WS.written s' = WS.written s.

(** The object is open, no write is under way and the loop is not at its
    [readFrame]. *)
Definition suspended (x : Sys) : Prop :=
  WS.writing (ws x) = None /\
  WS._isClosed (ws x) = false /\
  forall b, loop x <> WS.AwaitRead b.

(** Nothing was written, dispatched or closed between [x] and [x']. *)
Definition quiet (x x' : Sys) : Prop :=
  loop x' = loop x /\
  WS.events (ws x') = WS.events (ws x) /\
  WS.net (ws x') = WS.net (ws x) /\
  WS.conn (ws x') = WS.conn (ws x) /\
  WS.readyState (ws x') = WS.readyState (ws x) /\
  WS.written (ws x') = WS.written (ws x).

(** A connection on resource 3 with a mask, in a runtime where it is
    open: the state that the examples start from. *)
Definition net0 : Mod.Net :=
  {| Mod.open := [3%nat]; Mod.next := 4; Mod.trace := [] |}.

Definition connection0 : Mod.Connection :=
  {| Mod.conn := {| Mod.rid := 3 |}; Mod.mask := [0x12; 0x34; 0x56; 0x78] |}.

Definition sys0 : Sys := start connection0 net0.

End Run.


(** ** mod.ts: [createSocketConnection] *)

Module Socket.

(** Creates a websocket connection with custom headers:
    [new WS(await createConnection(url, headers))], the object taken at
    the end of the constructor together with its loop. *)
Definition createSocketConnection (env : Mod.Env) (url : Mod.URL)
  (headers : list (string * string)) : M Mod.Net Run.Sys :=
  (c <- Mod.createConnection env url headers ;;
   (fun n => (n, Ok (Run.start c n))))%monad.

End Socket.

(** ** Example environments *)

Module Examples.

(** Every connect and every handshake succeeds, every header is
    accepted. *)
Definition accepting : Mod.Env :=
  {| Mod.connect_fails := fun _ _ _ => None;
     Mod.handshake_fails := fun _ _ => None;
     Mod.header_ok := fun _ _ => true;
     Mod.random := [1; 2; 3; 4] |}.

(** No host can be reached. *)
Definition unreachable : Mod.Env :=
  {| Mod.connect_fails := fun _ _ _ => Some (ConnectError 1);
     Mod.handshake_fails := fun _ _ => None;
     Mod.header_ok := fun _ _ => true;
     Mod.random := [1; 2; 3; 4] |}.

(** Header names with a space are refused by [Headers.set]. *)
Definition picky : Mod.Env :=
  {| Mod.connect_fails := fun _ _ _ => None;
     Mod.handshake_fails := fun _ _ => None;
     Mod.header_ok := fun k _ => negb (String.eqb k "bad name");
     Mod.random := [1; 2; 3; 4] |}.

Definition localhost : Mod.URL :=
  {| Mod.protocol := "ws:"; Mod.hostname := "localhost"; Mod.port := "8080" |}.

Definition ftp : Mod.URL :=
  {| Mod.protocol := "ftp:"; Mod.hostname := "localhost";
     Mod.port := EmptyString |}.

End Examples.

(** ** ws.ts: the setters [onclose], [onmessage], [onerror], [onopen] *)

Module Listeners.

(** The event types that the class dispatches. *)
Inductive Kind := OnOpen | OnMessage | OnPing | OnPong | OnError | OnClose.

Definition kind_eqb (a b : Kind) : bool :=
  match a, b with
  | OnOpen, OnOpen | OnMessage, OnMessage | OnPing, OnPing
  | OnPong, OnPong | OnError, OnError | OnClose, OnClose => true
  | _, _ => false
  end.

(** The type that an event is dispatched under. *)
Definition type_of (ev : Event) : Kind :=
  match ev with
  | EvOpen => OnOpen
  | EvMessageText _ | EvMessageBinary _ => OnMessage
  | EvPing _ => OnPing
  | EvPong _ => OnPong
  | EvError _ => OnError
  | EvClose => OnClose
  end.

(** A callback of the event target: the function object (by the order of
    its creation) and the caller's listener that it calls. *)
Record Callback := { fn : nat; listener : nat }.

(** The event target: its callbacks in the order of their registration,
    and the number of function objects that the setters made. *)
Record Target := {
  callbacks : list (Kind * Callback);
  made : nat
}.

Definition no_listeners : Target := {| callbacks := []; made := 0 |}.

(** [addEventListener(type, callback)]: a callback that is registered
    for the type already is not added again. *)
Definition addEventListener (k : Kind) (c : Callback) (t : Target) : Target :=
  if existsb (fun kc => kind_eqb (fst kc) k && Nat.eqb (fn (snd kc)) (fn c))
             (callbacks t)
  then t
  else {| callbacks := callbacks t ++ [(k, c)]; made := made t |}.

(** The body of each setter: the arrow function [(event) => listener(event)]
    is a new function object, registered for the type of the setter. *)
Definition set_on (k : Kind) (l : nat) (t : Target) : Target :=
  addEventListener k {| fn := made t; listener := l |}
                   {| callbacks := callbacks t; made := S (made t) |}.

Definition onclose : nat -> Target -> Target := set_on OnClose.
Definition onmessage : nat -> Target -> Target := set_on OnMessage.
Definition onerror : nat -> Target -> Target := set_on OnError.
Definition onopen : nat -> Target -> Target := set_on OnOpen.

(** An assignment to one of the four setters. *)
Inductive Setter := SetClose | SetMessage | SetError | SetOpen.

Definition kind_of (x : Setter) : Kind :=
  match x with
  | SetClose => OnClose
  | SetMessage => OnMessage
  | SetError => OnError
  | SetOpen => OnOpen
  end.

Definition assign (a : Setter * nat) (t : Target) : Target :=
  match fst a with
  | SetClose => onclose (snd a) t
  | SetMessage => onmessage (snd a) t
  | SetError => onerror (snd a) t
  | SetOpen => onopen (snd a) t
  end.

Definition assign_all (l : list (Setter * nat)) (t : Target) : Target :=
  fold_left (fun t a => assign a t) l t.

(** The listeners that [dispatchEvent(ev)] calls, in order. *)
Definition called (ev : Event) (t : Target) : list nat :=
  map (fun kc => listener (snd kc))
      (filter (fun kc => kind_eqb (fst kc) (type_of ev)) (callbacks t)).

(** Every function object registered was made by a setter before. *)
Definition made_before (t : Target) : Prop :=
  Forall (fun kc => (fn (snd kc) < made t)%nat) (callbacks t).

End Listeners.

(** ** What an observer of the object counts *)

Module Obs.

Definition is_close_event (ev : Event) : bool :=
  match ev with EvClose => true | _ => false end.

(** The close events among the events dispatched. *)
Definition closes (evs : list Event) : nat :=
  length (filter is_close_event evs).

Definition is_close_op (op : Mod.NetOp) : bool :=
  match op with Mod.OpClose _ => true | _ => false end.

(** The calls of [conn.close()] among the calls made to the runtime. *)
Definition close_calls (ops : list Mod.NetOp) : nat :=
  length (filter is_close_op ops).

(** The opcodes that the loop passes over without touching its buffer. *)
Definition is_passed (o : OpCode) : bool :=
  match o with Pong | Reserved _ => true | _ => false end.

(** The pong events that a list of frames gives rise to. *)
Definition pong_events (fs : list WebSocketFrame) : list Event :=
  flat_map (fun f => match Frame.opcode f with
                     | Pong => [EvPong (Frame.payload f)]
                     | _ => []
                     end) fs.

(** A string or byte sequence of ASCII characters only. *)
Definition ascii_only (s : list Z) : Prop :=
  Forall (fun u => 0 <= u < 128) s.

(** [payloadsLength] is the number of bytes in [frames]. *)
Definition buffered (b : WS.Buf) : Prop :=
  WS.payloadsLength b = length (WS.payloads (WS.frames b)).

(** A queue entry as the methods make them: a frame with fin set that
    carries the mask [m], unless it is a Pong. *)
Definition made_by_methods (m : Mask) (e : Queue) : Prop :=
  Frame.isLastFrame (frame e) = true /\
  (Frame.mask (frame e) = Some m \/
   Frame.opcode (frame e) = Pong /\ Frame.mask (frame e) = None).

(** The queue holds one entry for each promise made, in the order of
    their making, every promise is pending, and every entry is as the
    methods make them. *)
Definition backlog (m : Mask) (s : WS.t) : Prop :=
  map d (WS.queue s) = seq 0 (length (WS.deferreds s)) /\
  Forall (fun p => p = None) (WS.deferreds s) /\
  Forall (made_by_methods m) (WS.queue s).

(** Between [s] and [s'] the queue and the promises are the same, or one
    entry as the methods make them, with a new pending promise, was put
    behind the others. *)
Definition grown (s s' : WS.t) : Prop :=
  WS.mask s' = WS.mask s /\
  (WS.queue s' = WS.queue s /\ WS.deferreds s' = WS.deferreds s \/
   exists f,
     WS.queue s' = WS.queue s ++ [{| frame := f; d := length (WS.deferreds s) |}] /\
     WS.deferreds s' = WS.deferreds s ++ [None] /\
     made_by_methods (WS.mask s) {| frame := f; d := length (WS.deferreds s) |}).

(** The connection is open as a fresh one is, or it was closed down once
    and its loop has ended; [ops] and [r] are the calls made to the runtime
    before the object was made and the resource of its transport. *)
Definition lifecycle (ops : list Mod.NetOp) (x : Run.Sys) : Prop :=
  WS.writing (Run.ws x) = None /\
  (WS._isClosed (Run.ws x) = false /\
   (WS.readyState (Run.ws x) = 1 \/ WS.readyState (Run.ws x) = 2) /\
   closes (WS.events (Run.ws x)) = 0%nat /\
   Mod.trace (WS.net (Run.ws x)) = ops
   \/
   WS._isClosed (Run.ws x) = true /\
   WS.readyState (Run.ws x) = 3 /\
   Run.loop x = WS.Returned /\
   closes (WS.events (Run.ws x)) = 1%nat /\
   Mod.trace (WS.net (Run.ws x)) =
   ops ++ [Mod.OpClose (Mod.rid (WS.conn (Run.ws x)))]).

(** The loop has not been left by an exception, and where it is at its
    read the connection is open and the buffer consistent. *)
Definition loop_sound (x : Run.Sys) : Prop :=
  match Run.loop x with
  | WS.AwaitRead b => buffered b /\ WS._isClosed (Run.ws x) = false
  | WS.Rejected _ => False
  | _ => True
  end.

End Obs.

(** * Properties *)

(** ** Typed arrays *)

Lemma firstn_exact (A : Type) (l1 l2 : list A) (n : nat) :
  length l1 = n -> firstn n (l1 ++ l2) = l1.
Proof.
  intros <-. rewrite firstn_app, Nat.sub_diag, firstn_all. simpl.
  apply app_nil_r.
Qed.

Lemma skipn_past (A : Type) (l1 l2 : list A) (n k : nat) :
  length l1 = n -> skipn (n + k) (l1 ++ l2) = skipn k l2.
Proof.
  intros <-. rewrite skipn_app.
  rewrite skipn_all2 by lia. simpl. f_equal. lia.
Qed.

Lemma u8_set_fits (arr src : Uint8Array) (offs : nat) :
  (offs + length src <= length arr)%nat ->
  u8_set arr src offs =
  Ok (firstn offs arr ++ src ++ skipn (offs + length src) arr).
Proof.
  intros H. unfold u8_set.
  destruct (Nat.leb_spec (offs + length src) (length arr)); [reflexivity | lia].
Qed.

Lemma u8_set_length (arr src arr' : Uint8Array) (offs : nat) :
  u8_set arr src offs = Ok arr' -> length arr' = length arr.
Proof.
  unfold u8_set.
  destruct (Nat.leb_spec (offs + length src) (length arr)) as [H | H];
    [| discriminate].
  intros [= <-].
  rewrite !length_app, length_firstn, length_skipn. lia.
Qed.

Module WSFacts.
Import WS.

Lemma payloads_app (fs gs : list WebSocketFrame) :
  payloads (fs ++ gs) = payloads fs ++ payloads gs.
Proof. unfold payloads. now rewrite map_app, concat_app. Qed.

(** The copy loop writes the fragments one behind the other, from [offs]
    on, when the array has room for them. *)
Lemma copy_frames_fits (fs : list WebSocketFrame) :
  forall (arr : Uint8Array) (offs : nat),
    (offs + length (payloads fs) <= length arr)%nat ->
    copy_frames fs arr offs =
    Ok (firstn offs arr ++ payloads fs ++
        skipn (offs + length (payloads fs)) arr).
Proof.
  induction fs as [| f fs IH]; intros arr offs Hfit.
  - simpl. rewrite Nat.add_0_r. now rewrite firstn_skipn.
  - change (payloads (f :: fs)) with (Frame.payload f ++ payloads fs) in *.
    rewrite length_app in Hfit. simpl.
    rewrite u8_set_fits by lia.
    assert (Hlen : length (firstn offs arr ++ Frame.payload f) =
                   (offs + length (Frame.payload f))%nat).
    { rewrite length_app, length_firstn. lia. }
    rewrite IH.
    + rewrite (app_assoc (firstn offs arr) (Frame.payload f)
                         (skipn (offs + length (Frame.payload f)) arr)).
      rewrite (firstn_exact _ _ _ _ Hlen).
      rewrite (skipn_past _ _ _ _ (length (payloads fs)) Hlen).
      rewrite skipn_skipn, length_app, <- !app_assoc.
      do 5 f_equal. lia.
    + rewrite !length_app, length_firstn, length_skipn. lia.
Qed.

(** With an array of exactly the accumulated length the copy is the
    concatenation. *)
Lemma copy_frames_zeros (fs : list WebSocketFrame) :
  copy_frames fs (zeros (length (payloads fs))) 0 = Ok (payloads fs).
Proof.
  rewrite copy_frames_fits.
  - simpl. rewrite skipn_all2, app_nil_r; [reflexivity |].
    unfold zeros. rewrite repeat_length. lia.
  - unfold zeros. rewrite repeat_length. lia.
Qed.

End WSFacts.

(** ** The message reassembler *)

Module Reassembly.
Import WS.

(** A fragment that does not end the message is buffered and nothing
    else happens. *)
Lemma on_data_buffers (f : WebSocketFrame) (b : Buf) (s : t) :
  _isClosed s = false ->
  Frame.isLastFrame f = false ->
  on_data f b s =
  (s, AwaitRead {| frames := frames b ++ [f];
                   payloadsLength := payloadsLength b + length (Frame.payload f) |}).
Proof.
  intros Hopen Hfin. unfold on_data, loop_top. now rewrite Hfin, Hopen.
Qed.

(** The fragment that ends the message delivers the buffered bytes and
    empties the buffer, when [payloadsLength] is the length buffered. *)
Lemma on_data_delivers (f first : WebSocketFrame) (b : Buf) (s : t) :
  _isClosed s = false ->
  Frame.isLastFrame f = true ->
  payloadsLength b = length (payloads (frames b)) ->
  hd_error (frames b ++ [f]) = Some first ->
  on_data f b s =
  (set_events (events s ++ [message_of first (payloads (frames b ++ [f]))]) s,
   AwaitRead empty_buf).
Proof.
  intros Hopen Hfin Hlen Hhd. unfold on_data. rewrite Hfin, Hlen.
  replace (length (payloads (frames b)) + length (Frame.payload f))%nat
    with (length (payloads (frames b ++ [f]))).
  - rewrite WSFacts.copy_frames_zeros, Hhd. unfold dispatchEvent, modify, loop_top.
    simpl. now rewrite Hopen.
  - rewrite WSFacts.payloads_app, length_app. unfold payloads. simpl.
    now rewrite app_nil_r.
Qed.

(** Fragments that do not end the message pile up in the buffer. *)
Lemma read_all_buffers (fs : list WebSocketFrame) :
  forall (b : Buf) (s : t),
    _isClosed s = false ->
    Forall (fun f => is_data (Frame.opcode f) = true /\
                     Frame.isLastFrame f = false) fs ->
    read_all fs (AwaitRead b) s =
    (s, AwaitRead {| frames := frames b ++ fs;
                     payloadsLength := payloadsLength b + length (payloads fs) |}).
Proof.
  induction fs as [| f fs IH]; intros b s Hopen Hall.
  - simpl. rewrite app_nil_r, Nat.add_0_r. now destruct b.
  - inversion Hall as [| ? ? [Hop Hfin] Hrest]; subst.
    assert (Hstep : on_read (Ok f) b s = on_data f b s).
    { unfold on_read. destruct (Frame.opcode f); try discriminate; reflexivity. }
    cbn [read_all]. rewrite Hstep, on_data_buffers by assumption.
    rewrite IH by assumption. simpl.
    change (payloads (f :: fs)) with (Frame.payload f ++ payloads fs).
    rewrite length_app, <- app_assoc, Nat.add_assoc. reflexivity.
Qed.

(** Reading a list of frames and then another is reading both. *)
Lemma read_all_app (fs gs : list WebSocketFrame) :
  forall (l : Loop) (s : t),
    read_all (fs ++ gs) l s =
    let '(s1, l1) := read_all fs l s in read_all gs l1 s1.
Proof.
  induction fs as [| f fs IH]; intros l s.
  - reflexivity.
  - destruct l; try (destruct gs; reflexivity).
    cbn [read_all app].
    destruct (on_read (Ok f) b s) as [s1 l1]. apply IH.
Qed.

(** C7: the frames of one fragmented message (a Text or Binary frame
    without fin, Continue frames without fin, a last Continue frame with
    fin), read from an empty buffer on a connection that is not closed,
    deliver exactly one message whose payload is the payloads of all the
    fragments in order; it is decoded as text exactly when the first
    fragment is a Text frame and is the bytes otherwise; the buffer is empty
    afterwards and nothing else of the object changes. *)
Theorem fragments_reassemble
  (first last : WebSocketFrame) (middle : list WebSocketFrame) (s : t) :
  _isClosed s = false ->
  Frame.opcode first = TextFrame \/ Frame.opcode first = BinaryFrame ->
  Frame.isLastFrame first = false ->
  Forall (fun f => Frame.opcode f = Continue /\ Frame.isLastFrame f = false)
         middle ->
  Frame.opcode last = Continue ->
  Frame.isLastFrame last = true ->
  read_all (first :: middle ++ [last]) (AwaitRead empty_buf) s =
  (set_events
     (events s ++
      [match Frame.opcode first with
       | TextFrame => EvMessageText (Text.decode (payloads (first :: middle ++ [last])))
       | _ => EvMessageBinary (payloads (first :: middle ++ [last]))
       end]) s,
   AwaitRead empty_buf).
Proof.
  intros Hopen Hfirst Hfin1 Hmid Hlast Hfin.
  change (first :: middle ++ [last]) with ((first :: middle) ++ [last]).
  rewrite read_all_app, read_all_buffers.
  - assert (Hstep : forall b, on_read (Ok last) b s = on_data last b s).
    { intros b. unfold on_read. now rewrite Hlast. }
    cbn [read_all]. rewrite Hstep.
    rewrite on_data_delivers with (first := first);
      try assumption; try reflexivity.
    unfold message_of, is_text. cbn [frames empty_buf app].
    destruct Hfirst as [-> | ->]; reflexivity.
  - assumption.
  - constructor.
    + split; [| assumption]. destruct Hfirst as [-> | ->]; reflexivity.
    + eapply Forall_impl; [| exact Hmid]. intros f [-> ->]. now split.
Qed.

(** The fragments "ab", "cd", "ef" under a Text first fragment arrive as
    the text message "abcdef". *)
Lemma fragments_ab_cd_ef :
  read_all
    [ {| Frame.isLastFrame := false; Frame.opcode := TextFrame;
         Frame.mask := None; Frame.payload := js "ab" |};
      {| Frame.isLastFrame := false; Frame.opcode := Continue;
         Frame.mask := None; Frame.payload := js "cd" |};
      {| Frame.isLastFrame := true; Frame.opcode := Continue;
         Frame.mask := None; Frame.payload := js "ef" |} ]
    (AwaitRead empty_buf) (Run.ws Run.sys0) =
  (set_events [EvOpen; EvMessageText (js "abcdef")] (Run.ws Run.sys0),
   AwaitRead empty_buf).
Proof.
  apply (fragments_reassemble
           {| Frame.isLastFrame := false; Frame.opcode := TextFrame;
              Frame.mask := None; Frame.payload := js "ab" |}
           {| Frame.isLastFrame := true; Frame.opcode := Continue;
              Frame.mask := None; Frame.payload := js "ef" |}
           [ {| Frame.isLastFrame := false; Frame.opcode := Continue;
                Frame.mask := None; Frame.payload := js "cd" |} ]
           (Run.ws Run.sys0)).
  - reflexivity.
  - left. reflexivity.
  - reflexivity.
  - constructor; [split; reflexivity | constructor].
  - reflexivity.
  - reflexivity.
Defined.

End Reassembly.

(** ** The methods of [WS] *)

Module Methods.
Import WS.

Lemma dequeue_open (s : t) :
  _isClosed s = false -> dequeue s = (s, Ok tt).
Proof.
  intros H. unfold dequeue. rewrite H.
  destruct (hd_error (queue s)); reflexivity.
Qed.

Lemma enqueue_open (f : WebSocketFrame) (s : t) :
  _isClosed s = false ->
  enqueue f s = (queued f s, Ok (length (deferreds s))).
Proof.
  intros H. unfold enqueue. rewrite H.
  unfold bind, deferred, modify, ret. cbn [set_deferreds queue deferreds].
  match goal with |- context [if ?c then _ else _] => destruct c end;
    [| reflexivity].
  rewrite dequeue_open by exact H. reflexivity.
Qed.

Lemma enqueue_closed (f : WebSocketFrame) (s : t) :
  _isClosed s = true -> enqueue f s = (s, Throw ConnectionReset).
Proof. intros H. unfold enqueue. now rewrite H. Qed.

Lemma ensureClosed_closes (s : t) :
  ensureClosed s = (closed_down s, Ok tt).
Proof.
  unfold ensureClosed, closed_down, try_finally, try_catch, conn_close,
    Mod.conn_close, bind, modify, dispatchEvent.
  destruct (Mod.is_open (net s) (conn s)); cbn.
  - reflexivity.
  - unfold set_events; cbn. now rewrite <- app_assoc.
Qed.

Lemma existsb_filter_out (r : nat) (l : list nat) :
  existsb (Nat.eqb r) (filter (fun x => negb (Nat.eqb r x)) l) = false.
Proof.
  induction l as [| x l IH]; [reflexivity |].
  simpl. destruct (Nat.eqb r x) eqn:E; simpl; [exact IH |].
  now rewrite E.
Qed.

Lemma not_open_after_close (c : Mod.Conn) (n : Mod.Net) :
  Mod.is_open (fst (Mod.conn_close c n)) c = false.
Proof.
  unfold Mod.conn_close, Mod.is_open.
  destruct (existsb _ (Mod.open n)); apply existsb_filter_out.
Qed.

(** The payload of a Close frame is the two header bytes, then the bytes
    of the reason; building it never throws. *)
Lemma close_payload_bytes (code : Z) (reason : option JSString) :
  close_payload code reason =
  Ok (map ToUint8 (close_header code) ++
      match reason with Some r => Text.encode r | None => [] end).
Proof.
  unfold close_payload.
  destruct reason as [[| u r] |]; try (now rewrite app_nil_r).
  set (bytes := Text.encode (u :: r)).
  rewrite u8_set_fits
    by (unfold zeros; rewrite repeat_length; simpl; lia).
  change (firstn 0 (zeros (2 + length bytes)) ++
          map ToUint8 (close_header code) ++
          skipn (0 + length (map ToUint8 (close_header code)))
                (zeros (2 + length bytes)))
    with (map ToUint8 (close_header code) ++ zeros (length bytes)).
  rewrite u8_set_fits
    by (rewrite length_app; unfold zeros; rewrite repeat_length; simpl; lia).
  change (firstn 2 (map ToUint8 (close_header code) ++ zeros (length bytes)))
    with (map ToUint8 (close_header code)).
  change (skipn (2 + length bytes)
                (map ToUint8 (close_header code) ++ zeros (length bytes)))
    with (skipn (length bytes) (zeros (length bytes))).
  rewrite skipn_all2 by (unfold zeros; rewrite repeat_length; lia).
  now rewrite app_nil_r.
Qed.

Lemma close_resume_closes (r : result unit) (s : t) :
  close_resume r s = (closed_down s, r).
Proof.
  unfold close_resume, try_finally, try_catch, lift, throw.
  destruct r; now rewrite ensureClosed_closes.
Qed.

Lemma close_begin_open (code : option Z) (reason : option JSString) (s : t) :
  _isClosed s = false ->
  close_begin code reason s =
  (queued {| Frame.isLastFrame := true;
             Frame.opcode := Close;
             Frame.mask := Some (mask s);
             Frame.payload :=
               map ToUint8
                   (close_header
                      match code with Some c => c | None => default_code end) ++
               match reason with Some r => Text.encode r | None => [] end |} s,
   Await (length (deferreds s))).
Proof.
  intros H. unfold close_begin. rewrite H. unfold bind, lift.
  now rewrite close_payload_bytes, enqueue_open.
Qed.

(** A call on a connection that is closed does nothing. *)
Lemma close_begin_closed (code : option Z) (reason : option JSString) (s : t) :
  _isClosed s = true -> close_begin code reason s = (s, Done (Ok tt)).
Proof. intros H. unfold close_begin. now rewrite H. Qed.

(** [send] and [ping] put the mask of the connection on their frame. *)
Lemma send_carries_mask (data : WebSocketMessage) (s : t) :
  _isClosed s = false ->
  exists f, send data s = (queued f s, Ok (length (deferreds s))) /\
            Frame.mask f = Some (mask s).
Proof.
  intros H. unfold send. rewrite enqueue_open by exact H.
  eexists. split; reflexivity.
Qed.

Lemma ping_carries_mask (data : WebSocketMessage) (s : t) :
  _isClosed s = false ->
  exists f, ping data s = (queued f s, Ok (length (deferreds s))) /\
            Frame.mask f = Some (mask s).
Proof.
  intros H. unfold ping. rewrite enqueue_open by exact H.
  eexists. split; reflexivity.
Qed.

(** C2: on a fresh connection whose mask is 12 34 56 78, a Ping frame with
    payload 1 2 3 is read: the Pong frame that the loop queues for it has
    no mask (the frames of [send], [ping] and [close] have the mask, see
    [send_carries_mask], [ping_carries_mask] and [close_begin_open]). *)
Theorem pong_reply_carries_no_mask :
  exists s,
    on_read (Ok {| Frame.isLastFrame := true; Frame.opcode := Ping;
                   Frame.mask := None; Frame.payload := [1; 2; 3] |})
            empty_buf (Run.ws Run.sys0)
    = (s, AwaitPong 0%nat [1; 2; 3] empty_buf) /\
    mask s = [0x12; 0x34; 0x56; 0x78] /\
    map frame (queue s) =
    [{| Frame.isLastFrame := true; Frame.opcode := Pong;
        Frame.mask := None; Frame.payload := [1; 2; 3] |}].
Proof. eexists. repeat split. Qed.

(** C9: [close()] without arguments on a fresh connection: the default
    code is 100 and the payload of the Close frame is the two bytes 0 and
    100, which read back as the code 100. *)
Theorem close_without_code_sends_100 :
  default_code = 100 /\
  close_code [0; 100] = 100 /\
  exists s,
    close_begin None None (Run.ws Run.sys0) = (s, Await 0%nat) /\
    map (fun e => (Frame.opcode (frame e), Frame.payload (frame e))) (queue s)
    = [(Close, [0; 100])].
Proof. repeat split. eexists. split; reflexivity. Qed.

End Methods.

(** ** The control frames *)

Module Control.
Import WS.

(** C5, as the claim has it, fails: a Ping frame with payload 1 2 3 is
    read on a fresh connection.  When the task ends the Pong frame is in
    the queue and the loop waits for its write, and no ping event has been
    dispatched: the only event so far is the open event. *)
Lemma pong_is_queued_before_ping_event :
  exists s,
    on_read (Ok {| Frame.isLastFrame := true; Frame.opcode := Ping;
                   Frame.mask := None; Frame.payload := [1; 2; 3] |})
            empty_buf (Run.ws Run.sys0)
    = (s, AwaitPong 0%nat [1; 2; 3] empty_buf) /\
    map (fun e => (Frame.opcode (frame e), Frame.payload (frame e))) (queue s)
    = [(Pong, [1; 2; 3])] /\
    events s = [EvOpen].
Proof. eexists. repeat split. Qed.

(** C5 (amended): on a connection that is not closed, a Ping frame with
    payload p makes the loop queue exactly one Pong frame with payload p,
    dispatch nothing and wait for the promise of that entry; when that
    promise is resolved the loop dispatches exactly one ping event with p
    and goes on (it reads the next frame unless the connection was closed
    meanwhile). *)
Theorem ping_queues_pong_then_notifies
  (frame : WebSocketFrame) (b : Buf) (s : t) :
  _isClosed s = false ->
  Frame.opcode frame = Ping ->
  on_read (Ok frame) b s =
  (queued {| Frame.isLastFrame := true; Frame.opcode := Pong;
             Frame.mask := None; Frame.payload := Frame.payload frame |} s,
   AwaitPong (length (deferreds s)) (Frame.payload frame) b) /\
  forall (s1 : t) (p : Deferred),
    on_settled (Ok tt) (AwaitPong p (Frame.payload frame) b) s1 =
    (set_events (events s1 ++ [EvPing (Frame.payload frame)]) s1,
     if _isClosed s1 then Returned else AwaitRead b).
Proof.
  intros Hopen Hop. split.
  - unfold on_read, on_ping. rewrite Hop.
    now rewrite Methods.enqueue_open.
  - intros s1 p. unfold on_settled, after_pong, dispatchEvent, modify, loop_top.
    cbn. destruct (_isClosed s1); reflexivity.
Qed.

Lemma ping_1_2_3_on_fresh_connection :
  fst (on_read (Ok {| Frame.isLastFrame := true; Frame.opcode := Ping;
                      Frame.mask := None; Frame.payload := [1; 2; 3] |})
               empty_buf (Run.ws Run.sys0))
  = queued {| Frame.isLastFrame := true; Frame.opcode := Pong;
              Frame.mask := None; Frame.payload := [1; 2; 3] |}
           (Run.ws Run.sys0) /\
  on_settled (Ok tt) (AwaitPong 0%nat [1; 2; 3] empty_buf) (Run.ws Run.sys0)
  = (set_events [EvOpen; EvPing [1; 2; 3]] (Run.ws Run.sys0),
     AwaitRead empty_buf).
Proof.
  destruct (ping_queues_pong_then_notifies
              {| Frame.isLastFrame := true; Frame.opcode := Ping;
                 Frame.mask := None; Frame.payload := [1; 2; 3] |}
              empty_buf (Run.ws Run.sys0) eq_refl eq_refl) as [H1 H2].
  split.
  - exact (f_equal fst H1).
  - exact (H2 (Run.ws Run.sys0) 0%nat).
Defined.

(** Once the write of the Close echo has succeeded, the Close case ends
    as intended: the connection is closed down, the close event is
    followed by the error event with the code and the reason, and [init]
    returns. *)
Lemma close_case_once_written (p : Deferred) (code : Z) (reason : JSString)
  (s : t) :
  on_settled (Ok tt) (AwaitClose p code reason) s =
  (set_events (events (closed_down s) ++ [EvError (CloseInfo code reason)])
              (closed_down s),
   Returned).
Proof.
  unfold on_settled. now rewrite Methods.close_resume_closes.
Qed.

Lemma close_code_short (payload : Uint8Array) :
  (length payload < 2)%nat ->
  index payload 1 = None /\
  close_code payload = Z.shiftl (int32_of (index payload 0)) 8 /\
  close_reason payload = [].
Proof.
  destruct payload as [| b0 [| b1 rest]]; cbn [length]; try lia; intros _.
  - repeat split.
  - split; [reflexivity |]. split; [| reflexivity].
    unfold close_code. cbn [index nth_error int32_of]. apply Z.lor_0_r.
Qed.

(** The Close case on an open connection, whatever the payload: the
    code and the reason are read off the payload as it is and handed to
    [close]. *)
Lemma close_case_open (f : WebSocketFrame) (b : Buf) (s : t) :
  _isClosed s = false ->
  Frame.opcode f = Close ->
  on_read (Ok f) b s =
  (queued {| Frame.isLastFrame := true; Frame.opcode := Close;
             Frame.mask := Some (mask s);
             Frame.payload :=
               map ToUint8 (close_header (close_code (Frame.payload f))) ++
               Text.encode (close_reason (Frame.payload f)) |}
          (set_readyState 2 s),
   AwaitClose (length (deferreds s))
              (close_code (Frame.payload f)) (close_reason (Frame.payload f))).
Proof.
  intros Hopen Hop. unfold on_read, on_close. rewrite Hop.
  now rewrite Methods.close_begin_open by exact Hopen.
Qed.

(** C10: the Close case of the loop reads [payload[0]] and [payload[1]]
    and takes the reason from index 2 on without looking at the length of
    the payload.  On an open connection a Close frame of any length gets
    the same treatment: [readyState] becomes 2, a Close frame made from
    the code and the reason read is queued, and the loop waits with that
    code and that reason.  Both reads are inside the payload exactly when
    it has at least two bytes; then the code is the two bytes read
    big-endian and the reason is what follows them.  On a shorter payload
    the handler goes on all the same: the read at index 1 (and at index 0
    when the payload is empty) is outside and gives [undefined], which the
    bit operators take as 0, so the loop waits with the code made from the
    missing bytes and with the empty reason. *)
Theorem close_case_reads_without_guard
  (f : WebSocketFrame) (b : Buf) (s : t) :
  _isClosed s = false ->
  Frame.opcode f = Close ->
  on_read (Ok f) b s =
  (queued {| Frame.isLastFrame := true; Frame.opcode := Close;
             Frame.mask := Some (mask s);
             Frame.payload :=
               map ToUint8 (close_header (close_code (Frame.payload f))) ++
               Text.encode (close_reason (Frame.payload f)) |}
          (set_readyState 2 s),
   AwaitClose (length (deferreds s))
              (close_code (Frame.payload f)) (close_reason (Frame.payload f))) /\
  (index (Frame.payload f) 0 <> None /\ index (Frame.payload f) 1 <> None
   <-> (2 <= length (Frame.payload f))%nat) /\
  ((2 <= length (Frame.payload f))%nat ->
   exists b0 b1 rest,
     Frame.payload f = b0 :: b1 :: rest /\
     snd (on_read (Ok f) b s) =
     AwaitClose (length (deferreds s)) (Z.lor (Z.shiftl b0 8) b1)
                (Text.decode rest)) /\
  ((length (Frame.payload f) < 2)%nat ->
   index (Frame.payload f) 1 = None /\
   snd (on_read (Ok f) b s) =
   AwaitClose (length (deferreds s))
              (Z.shiftl (int32_of (index (Frame.payload f) 0)) 8) []).
Proof.
  intros Hopen Hop.
  pose proof (close_case_open f b s Hopen Hop) as Hrun.
  split; [exact Hrun |]. rewrite Hrun. cbn [snd].
  split; [| split].
  - destruct (Frame.payload f) as [| b0 [| b1 rest]];
      cbn [length index nth_error].
    + split; [intros [H _]; now elim H | lia].
    + split; [intros [_ H]; now elim H | lia].
    + split; [lia | intros _; split; discriminate].
  - intros Hlen.
    destruct (Frame.payload f) as [| b0 [| b1 rest]]; cbn [length] in Hlen;
      try lia.
    exists b0, b1, rest. split; reflexivity.
  - intros Hlen.
    destruct (close_code_short (Frame.payload f) Hlen) as (Hidx & Hcode & Hreason).
    split; [exact Hidx |]. now rewrite Hcode, Hreason.
Qed.

Lemma close_case_on_one_byte_payload :
  index [0x03] 1 = None /\
  snd (on_read (Ok {| Frame.isLastFrame := true; Frame.opcode := Close;
                      Frame.mask := None; Frame.payload := [0x03] |})
               empty_buf (Run.ws Run.sys0))
  = AwaitClose 0%nat 768 [].
Proof.
  destruct (close_case_reads_without_guard
              {| Frame.isLastFrame := true; Frame.opcode := Close;
                 Frame.mask := None; Frame.payload := [0x03] |}
              empty_buf (Run.ws Run.sys0) eq_refl eq_refl)
    as (_ & _ & _ & Hshort).
  exact (Hshort ltac:(cbn; lia)).
Defined.

End Control.

(** ** The write queue among the tasks *)

Module Tasks.
Import WS Run.

Lemma enqueue_same_writes (f : WebSocketFrame) (s : t) :
  same_writes s (fst (enqueue f s)).
Proof.
  destruct (_isClosed s) eqn:E.
  - rewrite Methods.enqueue_closed by exact E. now split.
  - rewrite Methods.enqueue_open by exact E. now split.
Qed.

Lemma close_begin_same_writes (code : option Z) (reason : option JSString)
  (s : t) :
  same_writes s (fst (close_begin code reason s)).
Proof.
  destruct (_isClosed s) eqn:E.
  - rewrite Methods.close_begin_closed by exact E. now split.
  - rewrite Methods.close_begin_open by exact E. now split.
Qed.

Lemma on_data_same_writes (f : WebSocketFrame) (b : Buf) (s : t) :
  same_writes s (fst (on_data f b s)).
Proof.
  unfold on_data, loop_top, dispatchEvent, modify.
  destruct (Frame.isLastFrame f).
  - destruct (copy_frames _ _ _); [| now split].
    destruct (hd_error _); [| now split].
    cbn. destruct (_isClosed s); now split.
  - destruct (_isClosed s); now split.
Qed.

Lemma on_close_same_writes (f : WebSocketFrame) (s : t) :
  same_writes s (fst (on_close f s)).
Proof.
  unfold on_close.
  destruct (_isClosed s) eqn:E.
  - rewrite Methods.close_begin_closed by exact E. now split.
  - rewrite Methods.close_begin_open by exact E. now split.
Qed.

Lemma on_read_same_writes (r : result WebSocketFrame) (b : Buf) (s : t) :
  same_writes s (fst (on_read r b s)).
Proof.
  unfold on_read. destruct r as [f | e].
  - destruct (Frame.opcode f);
      try apply on_data_same_writes; try apply on_close_same_writes.
    + unfold on_ping.
      pose proof (enqueue_same_writes
                    {| Frame.isLastFrame := true; Frame.opcode := Pong;
                       Frame.mask := None; Frame.payload := Frame.payload f |} s)
        as H.
      destruct (enqueue _ s) as [s1 [p | e]]; exact H.
    + unfold on_pong, loop_top, dispatchEvent, modify. cbn.
      destruct (_isClosed s); now split.
    + unfold loop_top. destruct (_isClosed s); now split.
  - rewrite Methods.ensureClosed_closes. now split.
Qed.

(** As long as no write is under way, no task starts one. *)
Lemma step_starts_no_write (a : Action) (x x' : Sys) :
  writing (ws x) = None ->
  step a x = Some x' ->
  same_writes (ws x) (ws x').
Proof.
  intros Hidle Hstep. destruct a; cbn in Hstep.
  - injection Hstep as <-. apply enqueue_same_writes.
  - injection Hstep as <-. apply enqueue_same_writes.
  - pose proof (close_begin_same_writes code reason (ws x)) as H.
    destruct (close_begin code reason (ws x)) as [s [r | p]];
      injection Hstep as <-; exact H.
  - destruct (loop x); try discriminate.
    pose proof (on_read_same_writes r b (ws x)) as H.
    destruct (on_read r b (ws x)) as [s l].
    injection Hstep as <-. exact H.
  - now rewrite Hidle in Hstep.
Qed.

Lemma run_starts_no_write (acts : list Action) :
  forall x x',
    writing (ws x) = None ->
    run acts x = Some x' ->
    same_writes (ws x) (ws x').
Proof.
  induction acts as [| a acts IH]; intros x x' Hidle Hrun; cbn in Hrun.
  - injection Hrun as <-. now split.
  - destruct (step a x) as [x1 |] eqn:Hstep; [| discriminate].
    destruct (step_starts_no_write a x x1 Hidle Hstep) as [Hw1 Hn1].
    destruct (IH x1 x') as [Hw2 Hn2]; [congruence | exact Hrun |].
    split; congruence.
Qed.

(** From a fresh connection on, nothing is ever handed to [writeFrame]. *)
Lemma fresh_connection_never_writes (c : Mod.Connection) (n : Mod.Net)
  (acts : list Action) (x : Sys) :
  run acts (start c n) = Some x ->
  writing (ws x) = None /\ written (ws x) = [].
Proof.
  intros H. exact (run_starts_no_write acts (start c n) x eq_refl H).
Qed.

(** While the object is open, idle and not reading, the only tasks that
    can run are calls of [send], [ping] and [close]; they queue frames and
    change nothing else. *)
Lemma step_while_suspended (a : Action) (x x' : Sys) :
  suspended x ->
  step a x = Some x' ->
  suspended x' /\ quiet x x'.
Proof.
  intros (Hidle & Hopen & Hloop) Hstep. destruct a; cbn in Hstep.
  - unfold send in Hstep. rewrite Methods.enqueue_open in Hstep by exact Hopen.
    injection Hstep as <-. repeat split; assumption.
  - unfold ping in Hstep. rewrite Methods.enqueue_open in Hstep by exact Hopen.
    injection Hstep as <-. repeat split; assumption.
  - rewrite Methods.close_begin_open in Hstep by exact Hopen.
    injection Hstep as <-. repeat split; assumption.
  - destruct (loop x) eqn:E; try discriminate. now elim (Hloop b).
  - now rewrite Hidle in Hstep.
Qed.

Lemma run_while_suspended (acts : list Action) :
  forall x x',
    suspended x ->
    run acts x = Some x' ->
    suspended x' /\ quiet x x'.
Proof.
  induction acts as [| a acts IH]; intros x x' Hsusp Hrun; cbn in Hrun.
  - injection Hrun as <-. split; [exact Hsusp | now repeat split].
  - destruct (step a x) as [x1 |] eqn:Hstep; [| discriminate].
    destruct (step_while_suspended a x x1 Hsusp Hstep)
      as (Hs1 & Hl1 & He1 & Hn1 & Hc1 & Hr1 & Hw1).
    destruct (IH x1 x' Hs1 Hrun) as (Hs2 & Hl2 & He2 & Hn2 & Hc2 & Hr2 & Hw2).
    split; [exact Hs2 |]. repeat split; congruence.
Qed.

(** C1: on a fresh connection [send] is called with "a", "b" and "c".
    The three frames are in the queue in the order of the calls, but no
    write was begun, not even for the first one, which found the queue
    empty: [dequeue] returns at once because the connection is not
    closed.  Whatever tasks run on a fresh connection, [writeFrame] is
    never called. *)
Theorem queued_frames_are_never_written :
  (exists x,
     run [CallSend (Str (js "a")); CallSend (Str (js "b"));
          CallSend (Str (js "c"))] sys0 = Some x /\
     map (fun e => Frame.payload (frame e)) (queue (ws x))
     = [js "a"; js "b"; js "c"] /\
     writing (ws x) = None /\
     written (ws x) = []) /\
  forall acts,
    match run acts sys0 with
    | Some x => writing (ws x) = None /\ written (ws x) = []
    | None => True
    end.
Proof.
  split.
  - eexists. repeat split.
  - intros acts. destruct (run acts sys0) as [x |] eqn:E; [| exact I].
    exact (fresh_connection_never_writes connection0 net0 acts x E).
Qed.

(** C4: on a fresh connection [close()] is called twice.  The first call
    queues its Close frame and waits; the connection is not closed, so the
    second call is no no-op: it queues a second Close frame and waits as
    well.  No write was attempted and no close event dispatched, and
    whatever tasks follow, no write is ever attempted. *)
Theorem close_twice_queues_two_close_frames :
  exists x,
    run [CallClose None None; CallClose None None] sys0 = Some x /\
    map (fun e => Frame.opcode (frame e)) (queue (ws x)) = [Close; Close] /\
    closing x = [0%nat; 1%nat] /\
    _isClosed (ws x) = false /\
    events (ws x) = [EvOpen] /\
    written (ws x) = [] /\
    forall acts,
      match run acts x with
      | Some x' => written (ws x') = []
      | None => True
      end.
Proof.
  eexists. split; [reflexivity |]. repeat split.
  intros acts.
  match goal with |- match run acts ?y with _ => _ end =>
    destruct (run acts y) as [x' |] eqn:E; [| exact I];
    exact (proj2 (run_starts_no_write acts y x' eq_refl E))
  end.
Qed.

(** C6: on a fresh connection a Close frame with payload 03 E8 "bye" is
    read.  The code 1000 and the reason "bye" are extracted and the Close
    frame that echoes them is queued, but the loop then waits for a write
    that never begins: the connection stays in [readyState] 2, the
    transport stays open and neither the close nor the error event is
    dispatched, whatever tasks follow. *)
Theorem close_frame_leaves_connection_open :
  exists x,
    step (ReadSettles
            (Ok {| Frame.isLastFrame := true; Frame.opcode := Close;
                   Frame.mask := None;
                   Frame.payload := [0x03; 0xE8; 98; 121; 101] |})) sys0
    = Some x /\
    loop x = AwaitClose 0%nat 1000 (js "bye") /\
    map (fun e => (Frame.opcode (frame e), Frame.payload (frame e)))
        (queue (ws x))
    = [(Close, [0x03; 0xE8; 98; 121; 101])] /\
    forall acts,
      match run acts x with
      | Some x' =>
        _isClosed (ws x') = false /\
        readyState (ws x') = 2 /\
        Mod.is_open (net (ws x')) (conn (ws x')) = true /\
        events (ws x') = [EvOpen] /\
        written (ws x') = []
      | None => True
      end.
Proof.
  eexists. split; [reflexivity |]. split; [reflexivity |].
  split; [reflexivity |].
  intros acts.
  match goal with |- match run acts ?y with _ => _ end =>
    destruct (run acts y) as [x' |] eqn:E; [| exact I];
    assert (Hs : suspended y) by (repeat split; discriminate);
    destruct (run_while_suspended acts y x' Hs E)
      as ((_ & Hopen & _) & Hl & He & Hn & Hc & Hr & Hw)
  end.
  repeat split.
  - exact Hopen.
  - rewrite Hr. reflexivity.
  - rewrite Hn, Hc. reflexivity.
  - rewrite He. reflexivity.
  - rewrite Hw. reflexivity.
Qed.

End Tasks.

(** ** The handshake executor *)

Module Connecting.
Import Mod.

Lemma set_all_accepted (env : Env) (headers : list (string * string)) :
  forall (h : Headers) (n : Net),
    Forall (fun kv => header_ok env (fst kv) (snd kv) = true) headers ->
    set_all env headers h n = (n, Ok (merged headers h)).
Proof.
  induction headers as [| [k v] rest IH]; intros h n Hall.
  - reflexivity.
  - inversion Hall as [| ? ? Hok Hrest]; subst. cbn in Hok.
    cbn [set_all]. unfold bind, headers_set. rewrite Hok. unfold ret.
    now rewrite IH.
Qed.

(** C8: when the scheme is one of the four known ones, the connect
    succeeds, every header is accepted and the handshake then fails with
    an error, [createConnection] ends with that error, and the runtime it
    leaves has seen, in this order, the connect, the handshake and the
    close of the transport that was opened, which is no longer open. *)
Theorem handshake_failure_closes_transport
  (env : Env) (url : URL) (headers : list (string * string)) (n : Net)
  (tls : bool) (e : Err) :
  (tls = false /\ (protocol url = "http:" \/ protocol url = "ws:") \/
   tls = true /\ (protocol url = "https:" \/ protocol url = "wss:"))%string ->
  connect_fails env tls (hostname url)
    (parseInt (or_else (port url) (if tls then "443" else "80"))) = None ->
  Forall (fun kv => header_ok env (fst kv) (snd kv) = true) headers ->
  handshake_fails env url (merged headers []) = Some e ->
  exists n',
    createConnection env url headers n = (n', Throw e) /\
    is_open n' {| rid := next n |} = false /\
    trace n' =
    trace n ++
    [connect_op tls (hostname url)
       (parseInt (or_else (port url) (if tls then "443" else "80"))) (next n);
     OpHandshake (next n) (merged headers []);
     OpClose (next n)].
Proof.
  intros Hscheme Hconnect Hheaders Hfail.
  assert (Hopen :
    (if String.eqb (protocol url) "http:" || String.eqb (protocol url) "ws:"
     then connect env false (hostname url) (parseInt (or_else (port url) "80"))
     else if String.eqb (protocol url) "https:" || String.eqb (protocol url) "wss:"
     then connect env true (hostname url) (parseInt (or_else (port url) "443"))
     else throw (UnknownProtocol (protocol url))) n
    = ({| open := next n :: open n; next := S (next n);
          trace := trace n ++
                   [connect_op tls (hostname url)
                      (parseInt (or_else (port url)
                                         (if tls then "443" else "80")))
                      (next n)] |},
       Ok {| rid := next n |})).
  { destruct Hscheme as [[-> [Hp | Hp]] | [-> [Hp | Hp]]]; rewrite Hp; cbn;
      unfold connect; cbn in Hconnect; now rewrite Hconnect. }
  eexists. split; [| split].
  - unfold createConnection, bind. rewrite Hopen.
    rewrite set_all_accepted by exact Hheaders.
    unfold try_catch, handshake. rewrite Hfail.
    unfold conn_close, is_open, throw. cbn. rewrite Nat.eqb_refl. cbn.
    reflexivity.
  - apply Methods.existsb_filter_out.
  - cbn. rewrite <- !app_assoc. reflexivity.
Qed.

Lemma refused_upgrade_closes_transport :
  exists n',
    createConnection refusing somedomain
                     [("Authorization", "Bearer token")]%string no_conns
    = (n', Throw (HandshakeError 1)) /\
    is_open n' {| rid := 0 |} = false /\
    trace n' =
    [OpConnectTls "somedomain.com" (Some 443) 0;
     OpHandshake 0 [SetHeader "Authorization" "Bearer token"];
     OpClose 0].
Proof.
  apply (handshake_failure_closes_transport
           refusing somedomain [("Authorization", "Bearer token")]%string
           no_conns true (HandshakeError 1)).
  - right. split; [reflexivity | right; reflexivity].
  - reflexivity.
  - constructor; [reflexivity | constructor].
  - reflexivity.
Defined.

End Connecting.

(** ** The end of a connection *)

Module Closing.
Import WS Run Obs.

(** [ensureClosed] never throws.  It leaves the connection closed and the
    transport not open, dispatches the close event last, after an error
    event exactly when [conn.close()] threw because the resource was not
    open, and it leaves the queue and the promises of its entries as they
    are: what is queued stays pending. *)
Theorem ensureClosed_always_closes (s : t) :
  exists s',
    ensureClosed s = (s', Ok tt) /\
    _isClosed s' = true /\
    readyState s' = 3 /\
    Mod.is_open (net s') (conn s') = false /\
    Mod.trace (net s') = Mod.trace (net s) ++ [Mod.OpClose (Mod.rid (conn s))] /\
    queue s' = queue s /\
    deferreds s' = deferreds s /\
    events s' =
    events s ++
    (if Mod.is_open (net s) (conn s)
     then [EvClose]
     else [EvError (Thrown BadResource); EvClose]).
Proof.
  exists (closed_down s). rewrite Methods.ensureClosed_closes.
  split; [reflexivity |]. split; [reflexivity |]. split; [reflexivity |].
  split; [apply Methods.not_open_after_close |].
  split.
  - unfold closed_down, Mod.conn_close. cbn.
    destruct (Mod.is_open (net s) (conn s)); reflexivity.
  - split; [reflexivity |]. split; [reflexivity |].
    unfold closed_down. cbn.
    destruct (Mod.is_open (net s) (conn s)); reflexivity.
Qed.

(** On a closed connection [send] and [ping] throw ConnectionReset and
    [close] returns at once; none of them changes the object. *)
Theorem closed_connection_rejects_calls
  (s : t) (data : WebSocketMessage) (code : option Z) (reason : option JSString) :
  _isClosed s = true ->
  send data s = (s, Throw ConnectionReset) /\
  ping data s = (s, Throw ConnectionReset) /\
  close_begin code reason s = (s, Done (Ok tt)).
Proof.
  intros H. unfold send, ping.
  rewrite !Methods.enqueue_closed by exact H.
  rewrite Methods.close_begin_closed by exact H.
  now repeat split.
Qed.

Lemma send_after_read_failure :
  send (Str (js "late")) (fst (on_read (Throw (ReadError 1)) empty_buf (ws sys0)))
  = (fst (on_read (Throw (ReadError 1)) empty_buf (ws sys0)),
     Throw ConnectionReset).
Proof.
  apply (closed_connection_rejects_calls
           (fst (on_read (Throw (ReadError 1)) empty_buf (ws sys0)))
           (Str (js "late")) None None).
  reflexivity.
Defined.

(** A failed read closes the connection abruptly: the connection is
    closed down as by [ensureClosed], the loop ends, and no Close frame is
    queued. *)
Lemma read_failure_closes (e : Err) (b : Buf) (s : t) :
  on_read (Throw e) b s = (closed_down s, Returned).
Proof. unfold on_read. now rewrite Methods.ensureClosed_closes. Qed.

Lemma step_when_closed (a : Action) (x x' : Sys) :
  _isClosed (ws x) = true ->
  writing (ws x) = None ->
  (forall b, loop x <> AwaitRead b) ->
  step a x = Some x' ->
  x' = x.
Proof.
  intros Hclosed Hidle Hloop Hstep.
  destruct x as [s l c]. cbn in *. destruct a; cbn in Hstep.
  - unfold send in Hstep. rewrite Methods.enqueue_closed in Hstep by exact Hclosed.
    now injection Hstep.
  - unfold ping in Hstep. rewrite Methods.enqueue_closed in Hstep by exact Hclosed.
    now injection Hstep.
  - rewrite Methods.close_begin_closed in Hstep by exact Hclosed.
    now injection Hstep.
  - destruct l; try discriminate. now elim (Hloop b).
  - now rewrite Hidle in Hstep.
Qed.

(** Closed is final: once the connection is closed, no write is under
    way and the loop is not at its read, whatever is called and whatever
    settles changes nothing at all. *)
Theorem closed_is_final (acts : list Action) (x x' : Sys) :
  _isClosed (ws x) = true ->
  writing (ws x) = None ->
  (forall b, loop x <> AwaitRead b) ->
  run acts x = Some x' ->
  x' = x.
Proof.
  intros Hclosed Hidle Hloop. revert x'.
  induction acts as [| a acts IH]; intros x' Hrun; cbn in Hrun.
  - now injection Hrun.
  - destruct (step a x) as [x1 |] eqn:E; [| discriminate].
    rewrite (step_when_closed a x x1 Hclosed Hidle Hloop E) in Hrun.
    apply IH, Hrun.
Qed.

Lemma nothing_happens_after_read_failure :
  run [CallSend (Str (js "a")); CallClose None None; CallPing (Bin [1])]
      {| ws := closed_down (ws sys0); loop := Returned; closing := [] |}
  = Some {| ws := closed_down (ws sys0); loop := Returned; closing := [] |}.
Proof.
  assert (H : exists x',
             run [CallSend (Str (js "a")); CallClose None None; CallPing (Bin [1])]
                 {| ws := closed_down (ws sys0); loop := Returned; closing := [] |}
             = Some x') by (eexists; reflexivity).
  destruct H as [x' H]. rewrite H. f_equal.
  apply (closed_is_final
           [CallSend (Str (js "a")); CallClose None None; CallPing (Bin [1])]
           {| ws := closed_down (ws sys0); loop := Returned; closing := [] |} x').
  - reflexivity.
  - reflexivity.
  - discriminate.
  - exact H.
Defined.

Lemma closes_snoc (evs : list Event) (e : Event) :
  closes (evs ++ [e]) =
  (closes evs + if is_close_event e then 1 else 0)%nat.
Proof.
  unfold closes. rewrite filter_app, length_app. cbn.
  destruct (is_close_event e); reflexivity.
Qed.

(** A frame read on an open connection leaves it open: it may move it to
    [readyState] 2 and dispatch events, none of them the close event. *)
Lemma on_read_frame_stays_open (f : WebSocketFrame) (b : Buf) (s : t) :
  _isClosed s = false ->
  _isClosed (fst (on_read (Ok f) b s)) = false /\
  net (fst (on_read (Ok f) b s)) = net s /\
  conn (fst (on_read (Ok f) b s)) = conn s /\
  closes (events (fst (on_read (Ok f) b s))) = closes (events s) /\
  (readyState (fst (on_read (Ok f) b s)) = readyState s \/
   readyState (fst (on_read (Ok f) b s)) = 2).
Proof.
  intros Hopen.
  assert (Hdata :
    _isClosed (fst (on_data f b s)) = false /\
    net (fst (on_data f b s)) = net s /\
    conn (fst (on_data f b s)) = conn s /\
    closes (events (fst (on_data f b s))) = closes (events s) /\
    (readyState (fst (on_data f b s)) = readyState s \/
     readyState (fst (on_data f b s)) = 2)).
  { unfold on_data, loop_top, dispatchEvent, modify.
    destruct (Frame.isLastFrame f).
    - destruct (copy_frames _ _ _); [| repeat split; auto].
      destruct (hd_error _) as [first |]; [| repeat split; auto].
      cbn. rewrite Hopen. cbn. repeat split; auto.
      fold (closes (events s ++ [message_of first a])).
      rewrite closes_snoc. unfold message_of.
      destruct (is_text _); cbn; lia.
    - rewrite Hopen. repeat split; auto. }
  unfold on_read. destruct (Frame.opcode f); try exact Hdata.
  - unfold on_close. rewrite Methods.close_begin_open by exact Hopen.
    cbn. repeat split; auto.
  - unfold on_ping. rewrite Methods.enqueue_open by exact Hopen.
    cbn. repeat split; auto.
  - unfold on_pong, loop_top, dispatchEvent, modify. cbn. rewrite Hopen.
    cbn. repeat split; auto.
    fold (closes (events s ++ [EvPong (Frame.payload f)])).
    rewrite closes_snoc. cbn. lia.
  - unfold loop_top. rewrite Hopen. repeat split; auto.
Qed.

Lemma closes_closed_down (s : t) :
  closes (events (closed_down s)) = S (closes (events s)).
Proof.
  unfold closed_down, closes. cbn [events set_events].
  rewrite !filter_app, !length_app.
  destruct (Mod.is_open _ _); cbn; lia.
Qed.

Lemma trace_closed_down (s : t) :
  Mod.trace (net (closed_down s)) =
  Mod.trace (net s) ++ [Mod.OpClose (Mod.rid (conn s))].
Proof.
  unfold closed_down, Mod.conn_close. cbn.
  destruct (Mod.is_open _ _); reflexivity.
Qed.

Lemma step_keeps_lifecycle (ops : list Mod.NetOp) (a : Action) (x x' : Sys) :
  lifecycle ops x ->
  step a x = Some x' ->
  lifecycle ops x' /\ conn (ws x') = conn (ws x).
Proof.
  intros (Hidle & [(Hopen & Hready & Hcl & Htr) | (Hclosed & Hrest)]) Hstep.
  - (* open *)
    destruct a; cbn in Hstep.
    + unfold send in Hstep. rewrite Methods.enqueue_open in Hstep by exact Hopen.
      injection Hstep as <-. split; [| reflexivity].
      split; [exact Hidle |]. left. now repeat split.
    + unfold ping in Hstep. rewrite Methods.enqueue_open in Hstep by exact Hopen.
      injection Hstep as <-. split; [| reflexivity].
      split; [exact Hidle |]. left. now repeat split.
    + rewrite Methods.close_begin_open in Hstep by exact Hopen.
      injection Hstep as <-. split; [| reflexivity].
      split; [exact Hidle |]. left. now repeat split.
    + destruct (loop x) as [b | | | |]; try discriminate.
      destruct r as [f | e].
      * destruct (on_read_frame_stays_open f b (ws x) Hopen)
          as (H1 & H2 & H3 & H4 & H5).
        pose proof (Tasks.on_read_same_writes (Ok f) b (ws x)) as [Hw _].
        destruct (on_read (Ok f) b (ws x)) as [s l]. cbn in *.
        injection Hstep as <-. cbn. split; [| exact H3].
        split; [cbn; congruence |]. left. cbn.
        repeat split; try congruence.
        destruct H5 as [H5 | H5]; [rewrite H5; exact Hready | now right].
      * rewrite read_failure_closes in Hstep. injection Hstep as <-.
        split; [| reflexivity].
        split; [exact Hidle |]. right. cbn [ws loop].
        split; [reflexivity |]. split; [reflexivity |]. split; [reflexivity |].
        split.
        -- now rewrite closes_closed_down, Hcl.
        -- now rewrite trace_closed_down, Htr.
    + now rewrite Hidle in Hstep.
  - (* closed *)
    destruct Hrest as (Hready & Hloop & Hcl & Htr).
    assert (E : x' = x).
    { apply (step_when_closed a x x' Hclosed Hidle); [| exact Hstep].
      intros b. rewrite Hloop. discriminate. }
    subst x'. split; [| reflexivity].
    split; [exact Hidle |]. right. now repeat split.
Qed.

Lemma run_keeps_lifecycle (ops : list Mod.NetOp) (acts : list Action) :
  forall x x',
    lifecycle ops x ->
    run acts x = Some x' ->
    lifecycle ops x' /\ conn (ws x') = conn (ws x).
Proof.
  induction acts as [| a acts IH]; intros x x' Hl Hrun; cbn in Hrun.
  - injection Hrun as <-. now split.
  - destruct (step a x) as [x1 |] eqn:E; [| discriminate].
    destruct (step_keeps_lifecycle ops a x x1 Hl E) as [Hl1 Hc1].
    destruct (IH x1 x' Hl1 Hrun) as [Hl2 Hc2].
    split; [exact Hl2 | congruence].
Qed.

Lemma close_calls_snoc (ops : list Mod.NetOp) (r : nat) :
  close_calls (ops ++ [Mod.OpClose r]) = S (close_calls ops).
Proof.
  unfold close_calls. rewrite filter_app, length_app. cbn. lia.
Qed.

(** The life of a connection made from a [Connection], whatever is called
    on it and whatever is read: it is closed exactly when its [readyState]
    is 3; by then its loop has ended, exactly one close event was
    dispatched and [conn.close()] was called exactly once; before, there
    was no close event and no call of [conn.close()]. *)
Theorem fresh_connection_lifecycle
  (c : Mod.Connection) (n : Mod.Net) (acts : list Action) (x : Sys) :
  run acts (start c n) = Some x ->
  (_isClosed (ws x) = true <-> readyState (ws x) = 3) /\
  (_isClosed (ws x) = true -> loop x = Returned) /\
  closes (events (ws x)) = (if _isClosed (ws x) then 1 else 0)%nat /\
  close_calls (Mod.trace (net (ws x))) =
  (close_calls (Mod.trace n) + if _isClosed (ws x) then 1 else 0)%nat.
Proof.
  intros Hrun.
  assert (Hstart : lifecycle (Mod.trace n) (start c n)).
  { split; [reflexivity |]. left. repeat split. now left. }
  destruct (run_keeps_lifecycle (Mod.trace n) acts (start c n) x Hstart Hrun)
    as [(_ & [(Ho & Hr & Hc & Ht) | (Hcl & Hr & Hl & Hc & Ht)]) _].
  - rewrite Ho, Hc, Ht. split; [| split; [| split]].
    + split; [discriminate |].
      intros H3. destruct Hr as [Hr | Hr]; rewrite Hr in H3; discriminate.
    + discriminate.
    + reflexivity.
    + lia.
  - rewrite Hcl, Hc, Ht, close_calls_snoc. split; [| split; [| split]].
    + now split.
    + now intros _.
    + reflexivity.
    + lia.
Qed.

Lemma lifecycle_after_read_failure :
  closes (events (closed_down (ws sys0))) = 1%nat /\
  close_calls (Mod.trace (net (closed_down (ws sys0)))) = 1%nat.
Proof.
  destruct (fresh_connection_lifecycle
              connection0 net0
              [ReadSettles (Throw (ReadError 1)); CallClose None None]
              {| ws := closed_down (ws sys0); loop := Returned; closing := [] |}
              eq_refl)
    as (_ & _ & H1 & H2).
  split; [exact H1 | exact H2].
Defined.

End Closing.

(** ** What the queue holds *)

Module Backlog.
Import WS Run Obs.

Lemma grown_same (s s' : t) :
  mask s' = mask s -> queue s' = queue s -> deferreds s' = deferreds s ->
  grown s s'.
Proof. intros Hm Hq Hd. split; [exact Hm |]. left. now split. Qed.

Lemma grown_queued (f : WebSocketFrame) (s : t) :
  made_by_methods (mask s) {| frame := f; d := length (deferreds s) |} ->
  grown s (queued f s).
Proof.
  intros H. split; [reflexivity |]. right. exists f.
  split; [reflexivity | split; [reflexivity | exact H]].
Qed.

Lemma enqueue_grown (f : WebSocketFrame) (s : t) :
  Frame.isLastFrame f = true ->
  Frame.mask f = Some (mask s) \/ Frame.opcode f = Pong /\ Frame.mask f = None ->
  grown s (fst (enqueue f s)).
Proof.
  intros Hfin Hmask. destruct (_isClosed s) eqn:E.
  - rewrite Methods.enqueue_closed by exact E. now apply grown_same.
  - rewrite Methods.enqueue_open by exact E. apply grown_queued. now split.
Qed.

Lemma close_begin_grown (code : option Z) (reason : option JSString) (s : t) :
  grown s (fst (close_begin code reason s)).
Proof.
  destruct (_isClosed s) eqn:E.
  - rewrite Methods.close_begin_closed by exact E. now apply grown_same.
  - rewrite Methods.close_begin_open by exact E. apply grown_queued.
    split; [reflexivity | now left].
Qed.

Lemma on_read_grown (r : result WebSocketFrame) (b : Buf) (s : t) :
  grown s (fst (on_read r b s)).
Proof.
  unfold on_read. destruct r as [f | e].
  - assert (Hdata : grown s (fst (on_data f b s))).
    { unfold on_data, loop_top, dispatchEvent, modify.
      destruct (Frame.isLastFrame f).
      - destruct (copy_frames _ _ _); [| now apply grown_same].
        destruct (hd_error _); [| now apply grown_same].
        cbn. destruct (_isClosed s); now apply grown_same.
      - destruct (_isClosed s); now apply grown_same. }
    destruct (Frame.opcode f); try exact Hdata.
    + unfold on_close. destruct (_isClosed s) eqn:E.
      * rewrite Methods.close_begin_closed by exact E. now apply grown_same.
      * rewrite Methods.close_begin_open by exact E.
        split; [reflexivity |]. right. eexists. split; [reflexivity |].
        split; [reflexivity |]. split; [reflexivity | now left].
    + unfold on_ping.
      pose proof (enqueue_grown
                    {| Frame.isLastFrame := true; Frame.opcode := Pong;
                       Frame.mask := None; Frame.payload := Frame.payload f |}
                    s eq_refl (or_intror (conj eq_refl eq_refl))) as H.
      destruct (enqueue _ s) as [s1 [p | e]]; exact H.
    + unfold on_pong, loop_top, dispatchEvent, modify. cbn.
      destruct (_isClosed s); now apply grown_same.
    + unfold loop_top. destruct (_isClosed s); now apply grown_same.
  - rewrite Methods.ensureClosed_closes. now apply grown_same.
Qed.

Lemma step_grown (a : Action) (x x' : Sys) :
  writing (ws x) = None ->
  step a x = Some x' ->
  grown (ws x) (ws x').
Proof.
  intros Hidle Hstep. destruct a; cbn in Hstep.
  - injection Hstep as <-. apply enqueue_grown; [reflexivity | now left].
  - injection Hstep as <-. apply enqueue_grown; [reflexivity | now left].
  - pose proof (close_begin_grown code reason (ws x)) as H.
    destruct (close_begin code reason (ws x)) as [s [r | p]];
      injection Hstep as <-; exact H.
  - destruct (loop x); try discriminate.
    pose proof (on_read_grown r b (ws x)) as H.
    destruct (on_read r b (ws x)) as [s l].
    injection Hstep as <-. exact H.
  - now rewrite Hidle in Hstep.
Qed.

Lemma grown_backlog (m : Mask) (s s' : t) :
  mask s = m -> backlog m s -> grown s s' ->
  mask s' = m /\ backlog m s'.
Proof.
  intros Hm (Hd & Hp & Hf) (Hm' & [(Hq & Hds) | (f & Hq & Hds & Hmade)]).
  - split; [congruence |]. unfold backlog. rewrite Hq, Hds. now repeat split.
  - split; [congruence |]. unfold backlog. rewrite Hq, Hds.
    split; [| split].
    + rewrite map_app, Hd, length_app, Nat.add_1_r, seq_S. reflexivity.
    + apply Forall_app. split; [exact Hp | now constructor].
    + apply Forall_app. split; [exact Hf |]. constructor; [| constructor].
      now rewrite <- Hm.
Qed.

Lemma run_backlog (m : Mask) (acts : list Action) :
  forall x x',
    writing (ws x) = None -> mask (ws x) = m -> backlog m (ws x) ->
    run acts x = Some x' ->
    backlog m (ws x').
Proof.
  induction acts as [| a acts IH]; intros x x' Hidle Hm Hb Hrun; cbn in Hrun.
  - now injection Hrun as <-.
  - destruct (step a x) as [x1 |] eqn:E; [| discriminate].
    destruct (grown_backlog m (ws x) (ws x1) Hm Hb (step_grown a x x1 Hidle E))
      as [Hm1 Hb1].
    destruct (Tasks.step_starts_no_write a x x1 Hidle E) as [Hw _].
    apply (IH x1 x'); try assumption. congruence.
Qed.

(** On a connection made from a [Connection], whatever is called and
    whatever is read, the queue only grows: it holds one entry for every
    promise that [enqueue] made, in the order of the calls, and every such
    promise is still pending.  Every frame in it has fin set, and carries
    the mask of the connection unless it is an automatic Pong, which has
    none. *)
Theorem fresh_connection_backlog
  (c : Mod.Connection) (n : Mod.Net) (acts : list Action) (x : Sys) :
  run acts (start c n) = Some x ->
  map d (queue (ws x)) = seq 0 (length (deferreds (ws x))) /\
  Forall (fun p => p = None) (deferreds (ws x)) /\
  Forall (fun e =>
            Frame.isLastFrame (frame e) = true /\
            (Frame.mask (frame e) = Some (Mod.mask c) \/
             Frame.opcode (frame e) = Pong /\ Frame.mask (frame e) = None))
         (queue (ws x)).
Proof.
  intros Hrun.
  apply (run_backlog (Mod.mask c) acts (start c n) x); try reflexivity.
  - repeat split; constructor.
  - exact Hrun.
Qed.

Lemma backlog_after_three_calls :
  exists x,
    run [CallClose None None; CallPing (Bin [7]); CallSend (Str (js "a"))] sys0
    = Some x /\
    map d (queue (ws x)) = [0; 1; 2]%nat /\
    deferreds (ws x) = [None; None; None].
Proof.
  eexists. split; [reflexivity |].
  destruct (fresh_connection_backlog
              connection0 net0
              [CallClose None None; CallPing (Bin [7]); CallSend (Str (js "a"))]
              _ eq_refl) as (H1 & _ & _).
  split; [exact H1 | reflexivity].
Defined.

End Backlog.

(** ** The read loop on any frames *)

Module Reading.
Import WS Run Obs.

Lemma on_read_data (f : WebSocketFrame) (b : Buf) (s : t) :
  is_data (Frame.opcode f) = true ->
  on_read (Ok f) b s = on_data f b s.
Proof.
  intros H. unfold on_read. destruct (Frame.opcode f); try discriminate;
    reflexivity.
Qed.

Lemma hd_error_snoc (A : Type) (l : list A) (x : A) :
  hd_error (l ++ [x]) = Some (hd x l).
Proof. destruct l; reflexivity. Qed.

(** The frames of the data opcodes up to the first one with fin are
    delivered as one message, whatever their opcodes are among Text, Binary
    and Continue and whatever was buffered before: the payload is all the
    buffered payloads in order, and it is text or binary by the opcode of
    the first buffered frame alone.  The buffer is empty afterwards. *)
Theorem message_takes_type_of_first_frame
  (pre : list WebSocketFrame) (last : WebSocketFrame) (b : Buf) (s : t) :
  _isClosed s = false ->
  buffered b ->
  Forall (fun f => is_data (Frame.opcode f) = true /\
                   Frame.isLastFrame f = false) pre ->
  is_data (Frame.opcode last) = true ->
  Frame.isLastFrame last = true ->
  read_all (pre ++ [last]) (AwaitRead b) s =
  (set_events
     (events s ++
      [message_of (hd last (frames b ++ pre))
                  (payloads (frames b ++ pre ++ [last]))]) s,
   AwaitRead empty_buf).
Proof.
  intros Hopen Hbuf Hpre Hlast Hfin.
  rewrite Reassembly.read_all_app, Reassembly.read_all_buffers by assumption.
  cbn [read_all]. rewrite on_read_data by exact Hlast.
  rewrite Reassembly.on_data_delivers with (first := hd last (frames b ++ pre));
    try assumption.
  - cbn [frames]. now rewrite <- app_assoc.
  - cbn [frames payloadsLength]. rewrite Hbuf.
    now rewrite WSFacts.payloads_app, length_app.
  - cbn [frames]. apply hd_error_snoc.
Qed.

Lemma continue_then_text_is_binary :
  read_all
    [ {| Frame.isLastFrame := false; Frame.opcode := Continue;
         Frame.mask := None; Frame.payload := js "ab" |};
      {| Frame.isLastFrame := true; Frame.opcode := TextFrame;
         Frame.mask := None; Frame.payload := js "cd" |} ]
    (AwaitRead empty_buf) (ws sys0) =
  (set_events [EvOpen; EvMessageBinary (js "abcd")] (ws sys0),
   AwaitRead empty_buf).
Proof.
  apply (message_takes_type_of_first_frame
           [ {| Frame.isLastFrame := false; Frame.opcode := Continue;
                Frame.mask := None; Frame.payload := js "ab" |} ]
           {| Frame.isLastFrame := true; Frame.opcode := TextFrame;
              Frame.mask := None; Frame.payload := js "cd" |}
           empty_buf (ws sys0)).
  - reflexivity.
  - reflexivity.
  - constructor; [split; reflexivity | constructor].
  - reflexivity.
  - reflexivity.
Defined.

Lemma set_events_same (s : t) : set_events (events s) s = s.
Proof. now destruct s. Qed.

(** Pong frames and frames of an unknown opcode are passed over: each
    Pong frame gives its pong event, and neither the buffer of the
    fragments nor anything else of the object is touched. *)
Theorem passed_frames_leave_buffer
  (fs : list WebSocketFrame) (b : Buf) (s : t) :
  _isClosed s = false ->
  Forall (fun f => is_passed (Frame.opcode f) = true) fs ->
  read_all fs (AwaitRead b) s =
  (set_events (events s ++ pong_events fs) s, AwaitRead b).
Proof.
  revert s. induction fs as [| f fs IH]; intros s Hopen Hall.
  - cbn. now rewrite app_nil_r, set_events_same.
  - inversion Hall as [| ? ? Hf Hrest]; subst.
    cbn [read_all]. unfold on_read, pong_events. cbn [flat_map].
    fold (pong_events fs).
    destruct (Frame.opcode f); try discriminate.
    + unfold on_pong, loop_top, dispatchEvent, modify. cbn.
      rewrite Hopen. rewrite IH by assumption. cbn.
      now rewrite <- app_assoc.
    + unfold loop_top. rewrite Hopen. now rewrite IH.
Qed.

Lemma pong_between_fragments :
  read_all
    [ {| Frame.isLastFrame := true; Frame.opcode := Pong;
         Frame.mask := None; Frame.payload := [9] |};
      {| Frame.isLastFrame := true; Frame.opcode := Reserved 3;
         Frame.mask := None; Frame.payload := [1] |} ]
    (AwaitRead {| frames := [ {| Frame.isLastFrame := false;
                                 Frame.opcode := TextFrame;
                                 Frame.mask := None;
                                 Frame.payload := js "ab" |} ];
                  payloadsLength := 2 |})
    (ws sys0) =
  (set_events [EvOpen; EvPong [9]] (ws sys0),
   AwaitRead {| frames := [ {| Frame.isLastFrame := false;
                               Frame.opcode := TextFrame;
                               Frame.mask := None;
                               Frame.payload := js "ab" |} ];
                payloadsLength := 2 |}).
Proof.
  apply (passed_frames_leave_buffer
           [ {| Frame.isLastFrame := true; Frame.opcode := Pong;
                Frame.mask := None; Frame.payload := [9] |};
             {| Frame.isLastFrame := true; Frame.opcode := Reserved 3;
                Frame.mask := None; Frame.payload := [1] |} ]).
  - reflexivity.
  - repeat constructor.
Defined.

(** A frame read on an open connection with a consistent buffer leaves
    the loop at its next read with a consistent buffer, or waiting; no
    exception leaves [init]. *)
Lemma on_read_frame_keeps_buffer (f : WebSocketFrame) (b : Buf) (s : t) :
  _isClosed s = false ->
  buffered b ->
  match snd (on_read (Ok f) b s) with
  | AwaitRead b' => buffered b'
  | Rejected _ => False
  | _ => True
  end.
Proof.
  intros Hopen Hbuf.
  assert (Hdata : is_data (Frame.opcode f) = true ->
                  match snd (on_data f b s) with
                  | AwaitRead b' => buffered b'
                  | Rejected _ => False
                  | _ => True
                  end).
  { intros Hd. destruct (Frame.isLastFrame f) eqn:Hfin.
    - rewrite Reassembly.on_data_delivers with (first := hd f (frames b));
        try assumption; [reflexivity | apply hd_error_snoc].
    - rewrite Reassembly.on_data_buffers by assumption. cbn [snd].
      unfold buffered in *. cbn [frames payloadsLength].
      rewrite WSFacts.payloads_app, length_app, Hbuf. f_equal.
      unfold payloads. cbn. now rewrite app_nil_r. }
  unfold on_read. destruct (Frame.opcode f) eqn:Hop;
    try (apply Hdata; reflexivity).
  - unfold on_close. rewrite Methods.close_begin_open by exact Hopen. exact I.
  - unfold on_ping. rewrite Methods.enqueue_open by exact Hopen. exact I.
  - unfold on_pong, loop_top, dispatchEvent, modify. cbn. now rewrite Hopen.
  - unfold loop_top. now rewrite Hopen.
Qed.

Lemma step_keeps_loop_sound (a : Action) (x x' : Sys) :
  writing (ws x) = None ->
  loop_sound x ->
  step a x = Some x' ->
  loop_sound x'.
Proof.
  intros Hidle Hs Hstep. unfold loop_sound in *.
  destruct a; cbn in Hstep.
  - injection Hstep as <-. cbn [loop ws].
    destruct (loop x); auto. destruct Hs as [Hb Ho]. split; [exact Hb |].
    unfold send. now rewrite Methods.enqueue_open.
  - injection Hstep as <-. cbn [loop ws].
    destruct (loop x); auto. destruct Hs as [Hb Ho]. split; [exact Hb |].
    unfold ping. now rewrite Methods.enqueue_open.
  - destruct (loop x) eqn:El.
    + destruct Hs as [Hb Ho].
      rewrite Methods.close_begin_open in Hstep by exact Ho.
      injection Hstep as <-. cbn [loop ws]. now split.
    + destruct (close_begin code reason (ws x)) as [s [r | p0]];
        injection Hstep as <-; cbn [loop]; exact I.
    + destruct (close_begin code reason (ws x)) as [s [r | p0]];
        injection Hstep as <-; cbn [loop]; exact I.
    + destruct (close_begin code reason (ws x)) as [s [r | p0]];
        injection Hstep as <-; cbn [loop]; exact I.
    + contradiction.
  - destruct (loop x) as [b | | | |]; try discriminate.
    destruct Hs as [Hb Ho]. destruct r as [f | e].
    + pose proof (on_read_frame_keeps_buffer f b (ws x) Ho Hb) as Hk.
      destruct (Closing.on_read_frame_stays_open f b (ws x) Ho) as (Ho' & _).
      destruct (on_read (Ok f) b (ws x)) as [s l]. cbn [fst snd] in *.
      injection Hstep as <-. cbn [loop ws].
      destruct l; auto.
    + rewrite Closing.read_failure_closes in Hstep.
      injection Hstep as <-. exact I.
  - now rewrite Hidle in Hstep.
Qed.

Lemma run_keeps_loop_sound (acts : list Action) :
  forall x x',
    writing (ws x) = None ->
    loop_sound x ->
    run acts x = Some x' ->
    loop_sound x'.
Proof.
  induction acts as [| a acts IH]; intros x x' Hidle Hs Hrun; cbn in Hrun.
  - now injection Hrun as <-.
  - destruct (step a x) as [x1 |] eqn:E; [| discriminate].
    destruct (Tasks.step_starts_no_write a x x1 Hidle E) as [Hw _].
    apply (IH x1 x'); [congruence | | exact Hrun].
    exact (step_keeps_loop_sound a x x1 Hidle Hs E).
Qed.

(** On a connection made from a [Connection], whatever frames are read
    and whatever is called, no exception leaves [init]: the copy of the
    fragments never runs past the array it fills and the first fragment is
    always there, because [payloadsLength] is the number of bytes buffered
    whenever the loop is at its read. *)
Theorem init_never_throws
  (c : Mod.Connection) (n : Mod.Net) (acts : list Action) (x : Sys) :
  run acts (start c n) = Some x ->
  (forall e, loop x <> Rejected e) /\
  (forall b, loop x = AwaitRead b ->
             payloadsLength b = length (payloads (frames b))).
Proof.
  intros Hrun.
  assert (Hs : loop_sound x).
  { apply (run_keeps_loop_sound acts (start c n) x); try assumption.
    - reflexivity.
    - split; reflexivity. }
  unfold loop_sound in Hs. split.
  - intros e E. now rewrite E in Hs.
  - intros b E. rewrite E in Hs. apply Hs.
Qed.

Lemma init_after_fragment_and_ping :
  exists x,
    run [ReadSettles (Ok {| Frame.isLastFrame := false; Frame.opcode := TextFrame;
                            Frame.mask := None; Frame.payload := js "ab" |});
         CallSend (Bin [1]);
         ReadSettles (Ok {| Frame.isLastFrame := true; Frame.opcode := Ping;
                            Frame.mask := None; Frame.payload := [] |})] sys0
    = Some x /\
    forall e, loop x <> Rejected e.
Proof.
  eexists. split; [reflexivity |].
  apply (init_never_throws
           connection0 net0
           [ReadSettles (Ok {| Frame.isLastFrame := false; Frame.opcode := TextFrame;
                               Frame.mask := None; Frame.payload := js "ab" |});
            CallSend (Bin [1]);
            ReadSettles (Ok {| Frame.isLastFrame := true; Frame.opcode := Ping;
                               Frame.mask := None; Frame.payload := [] |})]).
  reflexivity.
Defined.

End Reading.

(** ** The payload of a Close frame, built and read back *)

Module CloseFrame.
Import WS Obs.

(** The two header bytes read back big-endian are the code modulo 2^16. *)
Lemma header_read_back (code : Z) :
  Z.lor (Z.shiftl (ToUint8 (Z.shiftr (ToUint32 code) 8)) 8)
        (ToUint8 (Z.land code 0x00ff))
  = code mod 65536.
Proof.
  unfold ToUint8, ToUint32.
  change 256 with (2 ^ 8). change 65536 with (2 ^ 16).
  change 255 with (Z.ones 8).
  rewrite Z.land_ones by lia.
  apply Z.bits_inj'. intros n Hn.
  rewrite Z.lor_spec.
  destruct (Z.lt_ge_cases n 8) as [H8 | H8].
  - rewrite Z.shiftl_spec_low by lia. cbn [orb].
    now rewrite !Z.mod_pow2_bits_low by lia.
  - rewrite Z.shiftl_spec by lia.
    rewrite (Z.mod_pow2_bits_high ((code mod 2 ^ 8)) 8 n) by lia.
    rewrite orb_false_r.
    destruct (Z.lt_ge_cases n 16) as [H16 | H16].
    + rewrite Z.mod_pow2_bits_low by lia.
      rewrite Z.shiftr_spec by lia.
      replace (n - 8 + 8) with n by lia.
      now rewrite !Z.mod_pow2_bits_low by lia.
    + now rewrite !Z.mod_pow2_bits_high by lia.
Qed.

(** [close] never fails to build its payload, whatever the code and the
    reason: the payload is two bytes, each in [0, 255], that hold the code
    modulo 2^16 big-endian, followed by the UTF-8 bytes of the reason, if
    there is one. *)
Theorem close_payload_layout (code : Z) (reason : option JSString) :
  exists b0 b1,
    close_payload code reason =
    Ok (b0 :: b1 ::
        match reason with Some r => Text.encode r | None => [] end) /\
    0 <= b0 < 256 /\
    0 <= b1 < 256 /\
    close_code (b0 :: b1 ::
                match reason with Some r => Text.encode r | None => [] end)
    = code mod 65536.
Proof.
  exists (ToUint8 (Z.shiftr (ToUint32 code) 8)), (ToUint8 (Z.land code 0x00ff)).
  split; [apply Methods.close_payload_bytes |].
  split; [unfold ToUint8; apply Z.mod_pos_bound; lia |].
  split; [unfold ToUint8; apply Z.mod_pos_bound; lia |].
  unfold close_code. cbn [index nth_error int32_of].
  apply header_read_back.
Qed.

Lemma strip_bom_other (b : Z) (bs : Uint8Array) :
  b <> 0xEF -> Text.strip_bom (b :: bs) = b :: bs.
Proof.
  intros H. unfold Text.strip_bom.
  destruct b as [| p | p]; try reflexivity.
  repeat (destruct p as [p | p |]; try reflexivity).
  now elim H.
Qed.

Lemma run_ascii (bs : Uint8Array) :
  ascii_only bs -> Text.run Text.start bs = bs.
Proof.
  induction 1 as [| b bs Hb _ IH]; [reflexivity |].
  cbn [Text.run]. unfold Text.step, Text.lead. cbn [Text.needed Text.start].
  change (0 =? 0) with true. cbv iota.
  replace (b <=? 127) with true by (symmetry; apply Z.leb_le; lia).
  cbn [app]. now rewrite IH.
Qed.

(** ASCII bytes decode to themselves and ASCII strings encode to
    themselves. *)
Lemma decode_ascii (bs : Uint8Array) :
  ascii_only bs -> Text.decode bs = bs.
Proof.
  intros H. unfold Text.decode.
  assert (Hs : Text.strip_bom bs = bs).
  { destruct H as [| b bs Hb _]; [reflexivity |].
    apply strip_bom_other. lia. }
  rewrite Hs, run_ascii by exact H. clear Hs.
  induction H as [| b bs Hb _ IH]; [reflexivity |].
  cbn [flat_map]. unfold Text.utf16 at 1.
  replace (b <? 65536) with true by (symmetry; apply Z.ltb_lt; lia).
  cbn [app]. now rewrite IH.
Qed.

Lemma encode_ascii (s : JSString) :
  ascii_only s -> Text.encode s = s.
Proof.
  intros H. unfold Text.encode.
  assert (Hs : Text.scalars s = s).
  { induction H as [| u s Hu _ IH]; [reflexivity |].
    cbn [Text.scalars]. unfold Text.is_high, Text.is_low.
    replace (55296 <=? u) with false by (symmetry; apply Z.leb_gt; lia).
    replace (56320 <=? u) with false by (symmetry; apply Z.leb_gt; lia).
    cbn [andb]. now rewrite IH. }
  rewrite Hs. clear Hs.
  induction H as [| u s Hu _ IH]; [reflexivity |].
  cbn [flat_map]. unfold Text.utf8 at 1.
  replace (u <? 128) with true by (symmetry; apply Z.ltb_lt; lia).
  cbn [app]. now rewrite IH.
Qed.

(** What [close] builds, the Close case reads back: for a code that fits
    two bytes and a reason of ASCII characters, the payload built by
    [close(code, reason)] has the length of the reason plus two, and the
    Close case extracts the same code and the same reason from it. *)
Theorem close_payload_round_trip (code : Z) (reason : JSString) :
  0 <= code < 65536 ->
  ascii_only reason ->
  exists payload,
    close_payload code (Some reason) = Ok payload /\
    length payload = (2 + length reason)%nat /\
    close_code payload = code /\
    close_reason payload = reason.
Proof.
  intros Hcode Hreason.
  exists (map ToUint8 (close_header code) ++ Text.encode reason).
  split; [apply Methods.close_payload_bytes |].
  rewrite encode_ascii by exact Hreason.
  split; [reflexivity |]. split.
  - unfold close_code. cbn [map close_header app index nth_error int32_of].
    rewrite header_read_back. apply Z.mod_small. exact Hcode.
  - unfold close_reason, subarray2. cbn [map close_header app skipn].
    apply decode_ascii. exact Hreason.
Qed.

Lemma close_1000_bye_round_trip :
  exists payload,
    close_payload 1000 (Some (js "bye")) = Ok payload /\
    length payload = 5%nat /\
    close_code payload = 1000 /\
    close_reason payload = js "bye".
Proof.
  apply (close_payload_round_trip 1000 (js "bye")).
  - lia.
  - repeat constructor; cbn; lia.
Defined.

Lemma big_endian_value (b0 b1 : Z) :
  0 <= b0 -> 0 <= b1 < 256 ->
  Z.lor (Z.shiftl b0 8) b1 = b0 * 256 + b1.
Proof.
  intros H0 H1.
  rewrite Z.shiftl_mul_pow2 by lia. change (2 ^ 8) with 256.
  assert (Hdisj : Z.land (b0 * 256) b1 = 0).
  { apply Z.bits_inj'. intros n Hn. rewrite Z.land_spec, Z.bits_0.
    destruct (Z.lt_ge_cases n 8) as [H8 | H8].
    - change 256 with (2 ^ 8). now rewrite Z.mul_pow2_bits_low by lia.
    - rewrite <- (Z.mod_small b1 (2 ^ 8)) by (change (2 ^ 8) with 256; lia).
      rewrite Z.mod_pow2_bits_high by lia. apply andb_false_r. }
  rewrite <- Z.lxor_lor by exact Hdisj.
  symmetry. apply Z.add_nocarry_lxor. exact Hdisj.
Qed.

Lemma header_of_read_code (b0 b1 : Z) :
  0 <= b0 < 256 -> 0 <= b1 < 256 ->
  map ToUint8 (close_header (Z.lor (Z.shiftl b0 8) b1)) = [b0; b1].
Proof.
  intros H0 H1. rewrite big_endian_value by lia.
  unfold close_header, ToUint8, ToUint32. cbn [map].
  change 255 with (Z.ones 8). rewrite Z.land_ones by lia.
  rewrite Z.shiftr_div_pow2 by lia.
  change (2 ^ 8) with 256. change (2 ^ 32) with 4294967296.
  rewrite (Z.mod_small (b0 * 256 + b1) 4294967296) by lia.
  replace ((b0 * 256 + b1) / 256) with b0
    by (apply (Z.div_unique _ _ b0 b1); lia).
  replace ((b0 * 256 + b1) mod 256) with b1
    by (apply (Z.mod_unique _ _ b0 b1); lia).
  now rewrite !Z.mod_small by lia.
Qed.

(** The echo of the close handshake repeats what was received: when a
    Close frame is read on an open connection and its payload is two bytes
    followed by ASCII text, the Close frame that the loop queues in answer
    carries the same payload and the mask of the connection, the
    connection is in [readyState] 2 and the loop waits for that entry. *)
Theorem close_echo_repeats_payload
  (f : WebSocketFrame) (b0 b1 : Z) (text : Uint8Array) (b : Buf) (s : t) :
  _isClosed s = false ->
  Frame.opcode f = Close ->
  Frame.payload f = b0 :: b1 :: text ->
  0 <= b0 < 256 -> 0 <= b1 < 256 ->
  ascii_only text ->
  on_read (Ok f) b s =
  (queued {| Frame.isLastFrame := true; Frame.opcode := Close;
             Frame.mask := Some (mask s);
             Frame.payload := Frame.payload f |}
          (set_readyState 2 s),
   AwaitClose (length (deferreds s)) (b0 * 256 + b1) text).
Proof.
  intros Hopen Hop Hp H0 H1 Htext.
  unfold on_read, on_close. rewrite Hop.
  rewrite Methods.close_begin_open by exact Hopen.
  rewrite Hp. unfold close_code, close_reason, subarray2.
  cbn [index nth_error int32_of skipn].
  rewrite header_of_read_code by assumption.
  rewrite decode_ascii, encode_ascii by assumption.
  now rewrite big_endian_value by lia.
Qed.

Lemma close_echo_of_1000_bye :
  on_read (Ok {| Frame.isLastFrame := true; Frame.opcode := Close;
                 Frame.mask := None;
                 Frame.payload := [0x03; 0xE8; 98; 121; 101] |})
          empty_buf (Run.ws Run.sys0) =
  (queued {| Frame.isLastFrame := true; Frame.opcode := Close;
             Frame.mask := Some [0x12; 0x34; 0x56; 0x78];
             Frame.payload := [0x03; 0xE8; 98; 121; 101] |}
          (set_readyState 2 (Run.ws Run.sys0)),
   AwaitClose 0%nat 1000 (js "bye")).
Proof.
  apply (close_echo_repeats_payload
           {| Frame.isLastFrame := true; Frame.opcode := Close;
              Frame.mask := None;
              Frame.payload := [0x03; 0xE8; 98; 121; 101] |}
           0x03 0xE8 [98; 121; 101] empty_buf (Run.ws Run.sys0)).
  - reflexivity.
  - reflexivity.
  - reflexivity.
  - lia.
  - lia.
  - repeat constructor; cbn; lia.
Defined.

End CloseFrame.

(** ** Opening a connection *)

Module Opening.
Import Mod.

(** The scheme is one that [createConnection] knows, and [tls] tells
    which of the two connects it takes. *)
Lemma transport_opened (env : Env) (url : URL) (n : Net) (tls : bool) :
  (tls = false /\ (protocol url = "http:" \/ protocol url = "ws:") \/
   tls = true /\ (protocol url = "https:" \/ protocol url = "wss:"))%string ->
  (if String.eqb (protocol url) "http:" || String.eqb (protocol url) "ws:"
   then connect env false (hostname url) (parseInt (or_else (port url) "80"))
   else if String.eqb (protocol url) "https:" || String.eqb (protocol url) "wss:"
   then connect env true (hostname url) (parseInt (or_else (port url) "443"))
   else throw (UnknownProtocol (protocol url))) n
  = connect env tls (hostname url)
            (parseInt (or_else (port url) (if tls then "443" else "80"))) n.
Proof.
  intros [[-> [Hp | Hp]] | [-> [Hp | Hp]]]; rewrite Hp; reflexivity.
Qed.

Lemma connect_succeeds (env : Env) (tls : bool) (host : string)
  (p : option Z) (n : Net) :
  connect_fails env tls host p = None ->
  connect env tls host p n =
  ({| open := next n :: open n; next := S (next n);
      trace := trace n ++ [connect_op tls host p (next n)] |},
   Ok {| rid := next n |}).
Proof. intros H. unfold connect. now rewrite H. Qed.

(** A scheme other than http, ws, https and wss is refused before
    anything is asked of the runtime. *)
Theorem unknown_scheme_opens_nothing
  (env : Env) (url : URL) (headers : list (string * string)) (n : Net) :
  protocol url <> "http:"%string ->
  protocol url <> "ws:"%string ->
  protocol url <> "https:"%string ->
  protocol url <> "wss:"%string ->
  createConnection env url headers n =
  (n, Throw (UnknownProtocol (protocol url))).
Proof.
  intros H1 H2 H3 H4. unfold createConnection, bind.
  apply String.eqb_neq in H1, H2, H3, H4.
  now rewrite H1, H2, H3, H4.
Qed.

Lemma ftp_is_refused :
  createConnection Examples.accepting Examples.ftp [] no_conns =
  (no_conns, Throw (UnknownProtocol "ftp:")).
Proof.
  apply (unknown_scheme_opens_nothing Examples.accepting Examples.ftp []
                                      no_conns);
    discriminate.
Defined.

(** When the connect fails, its error is the error of
    [createConnection], and neither a handshake nor a close is asked of
    the runtime. *)
Theorem connect_failure_opens_nothing
  (env : Env) (url : URL) (headers : list (string * string)) (n : Net)
  (tls : bool) (e : Err) :
  (tls = false /\ (protocol url = "http:" \/ protocol url = "ws:") \/
   tls = true /\ (protocol url = "https:" \/ protocol url = "wss:"))%string ->
  connect_fails env tls (hostname url)
    (parseInt (or_else (port url) (if tls then "443" else "80"))) = Some e ->
  createConnection env url headers n = (n, Throw e).
Proof.
  intros Hscheme Hfail. unfold createConnection, bind.
  rewrite (transport_opened env url n tls Hscheme).
  unfold connect. now rewrite Hfail.
Qed.

Lemma unreachable_host_opens_nothing :
  createConnection Examples.unreachable somedomain [] no_conns =
  (no_conns, Throw (ConnectError 1)).
Proof.
  apply (connect_failure_opens_nothing Examples.unreachable somedomain []
                                       no_conns true (ConnectError 1)).
  - right. split; [reflexivity | right; reflexivity].
  - reflexivity.
Defined.

(** The headers object of [createConnection] is made by one call of
    [set] for each of the caller's headers, in the caller's order, with
    the name and the value as the caller gave them. *)
Lemma merged_behind (headers : list (string * string)) :
  forall h,
    merged headers h =
    h ++ map (fun kv => SetHeader (fst kv) (snd kv)) headers.
Proof.
  induction headers as [| kv rest IH]; intros h.
  - cbn. now rewrite app_nil_r.
  - cbn [merged fold_left map]. fold (merged rest (set_call (fst kv) (snd kv) h)).
    rewrite IH. unfold set_call. now rewrite <- app_assoc.
Qed.

Lemma createConnection_succeeds
  (env : Env) (url : URL) (headers : list (string * string)) (n : Net)
  (tls : bool) :
  (tls = false /\ (protocol url = "http:" \/ protocol url = "ws:") \/
   tls = true /\ (protocol url = "https:" \/ protocol url = "wss:"))%string ->
  connect_fails env tls (hostname url)
    (parseInt (or_else (port url) (if tls then "443" else "80"))) = None ->
  Forall (fun kv => header_ok env (fst kv) (snd kv) = true) headers ->
  handshake_fails env url (merged headers []) = None ->
  createConnection env url headers n =
  ({| open := next n :: open n; next := S (next n);
      trace := (trace n ++
                [connect_op tls (hostname url)
                   (parseInt (or_else (port url) (if tls then "443" else "80")))
                   (next n)]) ++
               [OpHandshake (next n) (merged headers [])] |},
   Ok {| conn := {| rid := next n |}; mask := random env |}).
Proof.
  intros Hscheme Hconnect Hheaders Hshake.
  unfold createConnection, bind.
  rewrite (transport_opened env url n tls Hscheme).
  rewrite connect_succeeds by exact Hconnect.
  rewrite Connecting.set_all_accepted by exact Hheaders.
  unfold try_catch, handshake. rewrite Hshake.
  reflexivity.
Qed.

(** When the connect and the handshake succeed and every header is
    accepted, [createConnection] returns the transport it opened, still
    open, with the mask drawn for it; the runtime saw the connect, on the
    port of the URL or else on 80 or 443, and then the handshake, and no
    close.  The headers object given to the handshake was made by one call
    of [set] for each of the caller's headers, in the caller's order, with
    the name and the value as the caller gave them. *)
Theorem createConnection_returns_open_transport
  (env : Env) (url : URL) (headers : list (string * string)) (n : Net)
  (tls : bool) :
  (tls = false /\ (protocol url = "http:" \/ protocol url = "ws:") \/
   tls = true /\ (protocol url = "https:" \/ protocol url = "wss:"))%string ->
  connect_fails env tls (hostname url)
    (parseInt (or_else (port url) (if tls then "443" else "80"))) = None ->
  Forall (fun kv => header_ok env (fst kv) (snd kv) = true) headers ->
  handshake_fails env url (merged headers []) = None ->
  exists n',
    createConnection env url headers n =
    (n', Ok {| conn := {| rid := next n |}; mask := random env |}) /\
    is_open n' {| rid := next n |} = true /\
    trace n' =
    trace n ++
    [connect_op tls (hostname url)
       (parseInt (or_else (port url) (if tls then "443" else "80"))) (next n);
     OpHandshake (next n) (merged headers [])] /\
    merged headers [] = map (fun kv => SetHeader (fst kv) (snd kv)) headers.
Proof.
  intros Hscheme Hconnect Hheaders Hshake.
  eexists. split; [| split; [| split]].
  - now apply createConnection_succeeds with (tls := tls).
  - unfold is_open. cbn. now rewrite Nat.eqb_refl.
  - cbn. now rewrite <- app_assoc.
  - apply (merged_behind headers []).
Qed.

Lemma localhost_8080_is_opened :
  exists n',
    createConnection Examples.accepting Examples.localhost
                     [("Authorization", " Bearer token ")]%string no_conns =
    (n', Ok {| conn := {| rid := 0 |}; mask := [1; 2; 3; 4] |}) /\
    is_open n' {| rid := 0 |} = true /\
    trace n' =
    [OpConnect "localhost" (Some 8080) 0;
     OpHandshake 0 (merged [("Authorization", " Bearer token ")]%string [])] /\
    merged [("Authorization", " Bearer token ")]%string [] =
    [SetHeader "Authorization" " Bearer token "].
Proof.
  apply (createConnection_returns_open_transport
           Examples.accepting Examples.localhost
           [("Authorization", " Bearer token ")]%string no_conns false).
  - left. split; [reflexivity | right; reflexivity].
  - reflexivity.
  - constructor; [reflexivity | constructor].
  - reflexivity.
Defined.

Lemma set_all_rejected (env : Env) (headers : list (string * string)) :
  forall (h : Headers) (n : Net),
    Exists (fun kv => header_ok env (fst kv) (snd kv) = false) headers ->
    set_all env headers h n = (n, Throw TypeError).
Proof.
  induction headers as [| [k v] rest IH]; intros h n Hex.
  - inversion Hex.
  - cbn [set_all]. unfold bind, headers_set.
    destruct (header_ok env k v) eqn:Hok.
    + unfold ret. apply IH.
      inversion Hex as [? ? Hbad | ? ? Hlater]; subst; [| exact Hlater].
      cbn in Hbad. congruence.
    + reflexivity.
Qed.

(** A header that [Headers.set] refuses ends [createConnection] with a
    TypeError after the transport was opened and before the handshake:
    that transport is not closed, it stays open in the runtime. *)
Theorem rejected_header_leaves_transport_open
  (env : Env) (url : URL) (headers : list (string * string)) (n : Net)
  (tls : bool) :
  (tls = false /\ (protocol url = "http:" \/ protocol url = "ws:") \/
   tls = true /\ (protocol url = "https:" \/ protocol url = "wss:"))%string ->
  connect_fails env tls (hostname url)
    (parseInt (or_else (port url) (if tls then "443" else "80"))) = None ->
  Exists (fun kv => header_ok env (fst kv) (snd kv) = false) headers ->
  exists n',
    createConnection env url headers n = (n', Throw TypeError) /\
    is_open n' {| rid := next n |} = true /\
    trace n' =
    trace n ++
    [connect_op tls (hostname url)
       (parseInt (or_else (port url) (if tls then "443" else "80"))) (next n)].
Proof.
  intros Hscheme Hconnect Hbad.
  eexists. split; [| split].
  - unfold createConnection, bind.
    rewrite (transport_opened env url n tls Hscheme).
    rewrite connect_succeeds by exact Hconnect.
    rewrite set_all_rejected by exact Hbad. reflexivity.
  - unfold is_open. cbn. now rewrite Nat.eqb_refl.
  - reflexivity.
Qed.

Lemma bad_header_name_leaks_transport :
  exists n',
    createConnection Examples.picky Examples.localhost
                     [("Authorization", "x"); ("bad name", "y")]%string no_conns
    = (n', Throw TypeError) /\
    is_open n' {| rid := 0 |} = true /\
    trace n' = [OpConnect "localhost" (Some 8080) 0].
Proof.
  apply (rejected_header_leaves_transport_open
           Examples.picky Examples.localhost
           [("Authorization", "x"); ("bad name", "y")]%string no_conns false).
  - left. split; [reflexivity | right; reflexivity].
  - reflexivity.
  - right. left. reflexivity.
Defined.

(** [createSocketConnection] hands the connection it made to a new
    [WS]: under the same conditions the socket comes back open
    ([readyState] 1, not closed) on a transport that is open in the
    runtime, with the mask drawn for it, an empty queue, the open event
    dispatched and its loop at the first read. *)
Theorem createSocketConnection_gives_open_socket
  (env : Env) (url : URL) (headers : list (string * string)) (n : Net)
  (tls : bool) :
  (tls = false /\ (protocol url = "http:" \/ protocol url = "ws:") \/
   tls = true /\ (protocol url = "https:" \/ protocol url = "wss:"))%string ->
  connect_fails env tls (hostname url)
    (parseInt (or_else (port url) (if tls then "443" else "80"))) = None ->
  Forall (fun kv => header_ok env (fst kv) (snd kv) = true) headers ->
  handshake_fails env url (merged headers []) = None ->
  exists n' x,
    Socket.createSocketConnection env url headers n = (n', Ok x) /\
    WS.net (Run.ws x) = n' /\
    is_open n' (WS.conn (Run.ws x)) = true /\
    WS.readyState (Run.ws x) = 1 /\
    WS._isClosed (Run.ws x) = false /\
    WS.mask (Run.ws x) = random env /\
    WS.queue (Run.ws x) = [] /\
    WS.events (Run.ws x) = [EvOpen] /\
    Run.loop x = WS.AwaitRead WS.empty_buf.
Proof.
  intros Hscheme Hconnect Hheaders Hshake.
  do 2 eexists. split.
  - unfold Socket.createSocketConnection, bind.
    rewrite (createConnection_succeeds env url headers n tls)
      by assumption.
    reflexivity.
  - cbn. unfold is_open. cbn. rewrite Nat.eqb_refl. now repeat split.
Qed.

Lemma socket_to_localhost :
  exists n' x,
    Socket.createSocketConnection Examples.accepting Examples.localhost
                                  [] no_conns = (n', Ok x) /\
    WS.net (Run.ws x) = n' /\
    is_open n' (WS.conn (Run.ws x)) = true /\
    WS.readyState (Run.ws x) = 1 /\
    WS._isClosed (Run.ws x) = false /\
    WS.mask (Run.ws x) = [1; 2; 3; 4] /\
    WS.queue (Run.ws x) = [] /\
    WS.events (Run.ws x) = [EvOpen] /\
    Run.loop x = WS.AwaitRead WS.empty_buf.
Proof.
  apply (createSocketConnection_gives_open_socket
           Examples.accepting Examples.localhost [] no_conns false).
  - left. split; [reflexivity | right; reflexivity].
  - reflexivity.
  - constructor.
  - reflexivity.
Defined.

End Opening.

(** ** The setters of the listeners *)

Module Setters.
Import Listeners.

Lemma not_registered_yet (k : Kind) (t : Target) :
  made_before t ->
  existsb (fun kc => kind_eqb (fst kc) k && Nat.eqb (fn (snd kc)) (made t))
          (callbacks t) = false.
Proof.
  unfold made_before. induction 1 as [| kc l Hlt _ IH]; [reflexivity |].
  cbn. rewrite IH.
  replace (Nat.eqb (fn (snd kc)) (made t)) with false
    by (symmetry; apply Nat.eqb_neq; lia).
  now rewrite andb_false_r.
Qed.

(** A setter always adds a callback behind those registered: its arrow
    function is new, so the event target never takes it for one it
    has. *)
Lemma set_on_adds (k : Kind) (l : nat) (t : Target) :
  made_before t ->
  set_on k l t =
  {| callbacks := callbacks t ++ [(k, {| fn := made t; listener := l |})];
     made := S (made t) |} /\
  made_before (set_on k l t).
Proof.
  intros Hmb.
  assert (E : set_on k l t =
              {| callbacks := callbacks t ++ [(k, {| fn := made t; listener := l |})];
                 made := S (made t) |}).
  { unfold set_on, addEventListener. cbn [callbacks made fn].
    now rewrite not_registered_yet. }
  split; [exact E |]. rewrite E. unfold made_before in *. cbn.
  apply Forall_app. split.
  - eapply Forall_impl; [| exact Hmb]. cbn. intros; lia.
  - constructor; [cbn; lia | constructor].
Qed.

Lemma assign_adds (a : Setter * nat) (t : Target) :
  made_before t ->
  assign a t =
  {| callbacks := callbacks t ++
                  [(kind_of (fst a), {| fn := made t; listener := snd a |})];
     made := S (made t) |} /\
  made_before (assign a t).
Proof.
  intros Hmb. unfold assign, onclose, onmessage, onerror, onopen.
  destruct a as [[] l]; cbn [fst snd kind_of]; now apply set_on_adds.
Qed.

Lemma called_after_assignments (l : list (Setter * nat)) (ev : Event) :
  forall t,
    made_before t ->
    called ev (assign_all l t) =
    called ev t ++
    map snd (filter (fun a => kind_eqb (kind_of (fst a)) (type_of ev)) l).
Proof.
  induction l as [| a l IH]; intros t Hmb.
  - cbn. now rewrite app_nil_r.
  - destruct (assign_adds a t Hmb) as [E Hmb'].
    cbn [assign_all fold_left]. fold (assign_all l (assign a t)).
    rewrite IH by exact Hmb'. rewrite E. unfold called at 1.
    cbn [callbacks]. rewrite filter_app, map_app, <- app_assoc.
    fold (called ev t). f_equal. cbn [filter fst snd].
    destruct (kind_eqb (kind_of (fst a)) (type_of ev)); reflexivity.
Qed.

(** Assignments to [onclose], [onmessage], [onerror] and [onopen] add up:
    an event calls every listener that was ever assigned to the setter of
    its type, in the order of the assignments, an earlier one is never
    replaced; and since there is no setter for them, the ping and pong
    events call none of these listeners. *)
Theorem setters_add_listeners (l : list (Setter * nat)) (ev : Event) :
  called ev (assign_all l no_listeners) =
  map snd (filter (fun a => kind_eqb (kind_of (fst a)) (type_of ev)) l) /\
  (type_of ev = OnPing \/ type_of ev = OnPong ->
   called ev (assign_all l no_listeners) = []).
Proof.
  assert (E : called ev (assign_all l no_listeners) =
              map snd (filter (fun a => kind_eqb (kind_of (fst a)) (type_of ev)) l)).
  { rewrite called_after_assignments by constructor. reflexivity. }
  split; [exact E |].
  intros Hk. rewrite E.
  induction l as [| [x n] l IH]; [reflexivity |].
  cbn [filter fst]. 
  replace (kind_eqb (kind_of x) (type_of ev)) with false.
  - apply IH. rewrite called_after_assignments by constructor. reflexivity.
  - destruct Hk as [-> | ->]; destruct x; reflexivity.
Qed.

Lemma same_listener_assigned_twice :
  called (EvMessageText (js "hi"))
         (assign_all [(SetMessage, 5%nat); (SetClose, 6%nat); (SetMessage, 5%nat)]
                     no_listeners)
  = [5%nat; 5%nat] /\
  called (EvPing [1])
         (assign_all [(SetMessage, 5%nat); (SetClose, 6%nat); (SetMessage, 5%nat)]
                     no_listeners)
  = [].
Proof.
  split.
  - exact (proj1 (setters_add_listeners
                    [(SetMessage, 5%nat); (SetClose, 6%nat); (SetMessage, 5%nat)]
                    (EvMessageText (js "hi")))).
  - apply (proj2 (setters_add_listeners
                    [(SetMessage, 5%nat); (SetClose, 6%nat); (SetMessage, 5%nat)]
                    (EvPing [1]))).
    left. reflexivity.
Defined.

End Setters.

(** ** A call of [close] on an open connection *)

Module Pending.
Import WS Run Obs.

(** As long as no write is under way, the calls of [close] that wait at
    their [await] keep waiting. *)
Lemma step_keeps_closing (a : Action) (x x' : Sys) :
  writing (ws x) = None ->
  step a x = Some x' ->
  exists more, closing x' = closing x ++ more.
Proof.
  intros Hidle Hstep. destruct a; cbn in Hstep.
  - injection Hstep as <-. exists []. cbn. now rewrite app_nil_r.
  - injection Hstep as <-. exists []. cbn. now rewrite app_nil_r.
  - destruct (close_begin code reason (ws x)) as [s [r | p]];
      injection Hstep as <-; cbn.
    + exists []. now rewrite app_nil_r.
    + now exists [p].
  - destruct (loop x); try discriminate.
    destruct (on_read r b (ws x)) as [s l].
    injection Hstep as <-. exists []. cbn. now rewrite app_nil_r.
  - now rewrite Hidle in Hstep.
Qed.

Lemma run_keeps_closing (acts : list Action) :
  forall x x',
    writing (ws x) = None ->
    run acts x = Some x' ->
    exists more, closing x' = closing x ++ more.
Proof.
  induction acts as [| a acts IH]; intros x x' Hidle Hrun; cbn in Hrun.
  - injection Hrun as <-. exists []. now rewrite app_nil_r.
  - destruct (step a x) as [x1 |] eqn:E; [| discriminate].
    destruct (step_keeps_closing a x x1 Hidle E) as [m1 H1].
    destruct (Tasks.step_starts_no_write a x x1 Hidle E) as [Hw _].
    destruct (IH x1 x') as [m2 H2]; [congruence | exact Hrun |].
    exists (m1 ++ m2). now rewrite H2, H1, app_assoc.
Qed.

(** C3: [close()] is called on a fresh connection.  The call queues its
    Close frame and stops at its [await]: when the task ends the
    connection is not closed ([_isClosed] unset, [readyState] 1), the
    transport is open and no close event was dispatched.  Whatever tasks
    follow, the call never gets past its [await]: it is still waiting, the
    promise it waits for is pending like every other, and no write was
    begun; if the connection is closed at all later, it is because a read
    failed and ended the loop, not through this call. *)
Theorem close_call_never_closes :
  exists x,
    run [CallClose None None] sys0 = Some x /\
    closing x = [0%nat] /\
    map (fun e => (Frame.opcode (frame e), Frame.payload (frame e)))
        (queue (ws x)) = [(Close, [0; 100])] /\
    _isClosed (ws x) = false /\
    readyState (ws x) = 1 /\
    Mod.is_open (net (ws x)) (conn (ws x)) = true /\
    events (ws x) = [EvOpen] /\
    forall acts,
      match run acts x with
      | Some x' =>
        In 0%nat (closing x') /\
        Forall (fun p => p = None) (deferreds (ws x')) /\
        writing (ws x') = None /\
        written (ws x') = [] /\
        (_isClosed (ws x') = false \/ loop x' = Returned)
      | None => True
      end.
Proof.
  eexists. split; [reflexivity |]. do 6 (split; [reflexivity |]).
  intros acts.
  match goal with |- match run acts ?y with _ => _ end =>
    destruct (run acts y) as [x' |] eqn:E; [| exact I];
    destruct (run_keeps_closing acts y x' eq_refl E) as [more Hc];
    destruct (Tasks.run_starts_no_write acts y x' eq_refl E) as [Hw Hn];
    assert (Hb : backlog (mask (ws y)) (ws x'))
      by (apply (Backlog.run_backlog (mask (ws y)) acts y x');
          [reflexivity | reflexivity
           | repeat split; repeat constructor; now left | exact E]);
    assert (Hl : lifecycle (Mod.trace (net (ws y))) x')
      by (apply (Closing.run_keeps_lifecycle (Mod.trace (net (ws y))) acts y x');
          [split; [reflexivity |]; left; repeat split; now left | exact E])
  end.
  split; [rewrite Hc; now left |].
  split; [apply Hb |].
  split; [rewrite Hw; reflexivity |].
  split; [rewrite Hn; reflexivity |].
  destruct Hl as (_ & [(Ho & _) | (_ & _ & Hr & _)]); [now left | now right].
Qed.

End Pending.
